(** * Repeat-same-content handler: a shallow embedding of [src/plugin.py]

    The handler [RepeatSameContentHandler.execute] keeps, per group, a list
    of recent messages and the record of the last echoed content.  The two
    Python dicts are finite maps keyed by the group id; the clock reading
    [datetime.datetime.now()] and the behaviour of the host's [send_text]
    are inputs of each call.

    A Python [str] is modelled by the string of bytes of its UTF-8
    encoding: two texts are equal exactly when their encodings are, the
    empty text is the empty string, and [len] counts code points, not bytes
    ([py_len]).

    Time stamps are integers counting microseconds (the resolution of
    [datetime]); [timedelta.total_seconds()] is that count divided by 10^6,
    so [total_seconds() <= s] is [delta <= s * 10^6] and is modelled
    exactly, without the rounding of the float division. *)

From stdpp Require Import gmap strings list fin_maps sorting.

Open Scope Z_scope.

(** ** Data *)

(** The fields of [MaiMessages] that [execute] reads.  [None] stands for
    Python's [None]. *)
Record MaiMessages := {
  is_group_message : bool;
  stream_id : option string;
  plain_text : option string
}.

(** The five values read through [get_config] (each is what [get_config]
    returns: the configured integer, or the default when it is missing). *)
Record Config := {
  time_window_minutes : Z;
  message_window_size : Z;
  required_same_count : Z;
  max_message_length : Z;
  repeat_cooldown_minutes : Z
}.

Definition default_config : Config := {|
  time_window_minutes := 5;
  message_window_size := 10;
  required_same_count := 3;
  max_message_length := 100;
  repeat_cooldown_minutes := 10
|}.

(** An entry [{'time': ..., 'content': ...}] of [group_messages[group_id]]. *)
Record Msg := { time : Z; content : string }.

(** An entry [{'content': ..., 'timestamp': ...}] of
    [last_repeated_content]. *)
Record LastRepeated := { lr_content : string; lr_timestamp : option Z }.

(** The two dicts of the handler object. *)
Record Handler := {
  group_messages : gmap string (list Msg);
  last_repeated_content : gmap string LastRepeated
}.

(** [__init__]: both dicts empty. *)
Definition init : Handler :=
  {| group_messages := ∅; last_repeated_content := ∅ |}.

(** What the awaited [send_text] does when it is called: it returns (its
    value is ignored by [execute]) or it raises. *)
Inductive SendOutcome := SendReturns | SendRaises.

(** How a call of [execute] ends. *)
Inductive Completion := Returned | Raised.

(** The result of one call: the handler's state afterwards, the
    [send_text(group_id, content)] call that was made, if any, and whether
    the call returned or let an exception through. *)
Record Result := {
  final : Handler;
  sent : option (string * string);
  completion : Completion
}.

#[global] Instance Msg_eq_dec : EqDecision Msg.
Proof. solve_decision. Defined.
#[global] Instance LastRepeated_eq_dec : EqDecision LastRepeated.
Proof. solve_decision. Defined.

(** ** Texts *)

(** A byte of the form [10xxxxxx]: in UTF-8 it continues a code point begun
    by an earlier byte. *)
Definition is_continuation_byte (a : Ascii.ascii) : bool :=
  match a with
  | Ascii.Ascii _ _ _ _ _ _ b6 b7 => b7 && negb b6
  end.

(** Python's [len] of a [str], on its UTF-8 encoding: the number of code
    points, one for every byte that is not a continuation byte. *)
Fixpoint py_len (s : string) : nat :=
  match s with
  | EmptyString => 0
  | String a rest =>
      if is_continuation_byte a then py_len rest else S (py_len rest)
  end.

(** ** Time arithmetic *)

Definition microseconds_per_second : Z := 1000000.

(** [delta.total_seconds() <= seconds] *)
Definition total_seconds_le (delta seconds : Z) : bool :=
  delta <=? seconds * microseconds_per_second.

(** [delta.total_seconds() > seconds] *)
Definition total_seconds_gt (delta seconds : Z) : bool :=
  seconds * microseconds_per_second <? delta.

(** ** The window *)

(** Lines 79-85: the loop over [reversed(...)], appending to [filtered]
    until the first entry outside the time window ([break]). *)
Fixpoint filter_loop (current_time time_window_seconds : Z)
    (rest filtered : list Msg) : list Msg :=
  match rest with
  | [] => filtered
  | msg :: rest' =>
      if total_seconds_le (current_time - time msg) time_window_seconds
      then filter_loop current_time time_window_seconds rest' (filtered ++ [msg])
      else filtered
  end.

(** Lines 78-88: [filtered_messages[::-1]] after the loop. *)
Definition prune_time_window (current_time time_window_seconds : Z)
    (messages : list Msg) : list Msg :=
  reverse (filter_loop current_time time_window_seconds (reverse messages) []).

(** Python's [l[start:]]: a negative [start] counts from the end and is
    clamped at the front; a non-negative one is clamped at the end. *)
Definition py_slice_from {A} (start : Z) (l : list A) : list A :=
  let len := Z.of_nat (length l) in
  let s := if start <? 0 then Z.max 0 (start + len) else Z.min start len in
  drop (Z.to_nat s) l.

(** Lines 91-92. *)
Definition limit_window (message_window_size : Z) (messages : list Msg)
    : list Msg :=
  if message_window_size <? Z.of_nat (length messages)
  then py_slice_from (- message_window_size) messages
  else messages.

(** Lines 72-92: append, prune by time, cap by count. *)
Definition update_window (cfg : Config) (current_time : Z)
    (message_content : string) (messages : list Msg) : list Msg :=
  let appended :=
    messages ++ [{| time := current_time; content := message_content |}] in
  let time_window_seconds := time_window_minutes cfg * 60 in
  limit_window (message_window_size cfg)
    (prune_time_window current_time time_window_seconds appended).

(** Lines 95-98. *)
Fixpoint count_same (message_content : string) (messages : list Msg)
    (same_count : Z) : Z :=
  match messages with
  | [] => same_count
  | msg :: rest =>
      count_same message_content rest
        (if String.eqb (content msg) message_content
         then same_count + 1 else same_count)
  end.

(** Lines 101-114. *)
Definition can_repeat (cfg : Config) (current_time : Z)
    (message_content : string) (same_count : Z) (last : LastRepeated) : bool :=
  if required_same_count cfg <=? same_count then
    if negb (String.eqb message_content (lr_content last)) then true
    else
      match lr_timestamp last with
      | None => true
      | Some last_repeat_time =>
          total_seconds_gt (current_time - last_repeat_time)
            (repeat_cooldown_minutes cfg * 60)
      end
  else false.

(** ** The handler *)

(** [return True, True, None, None, None] with nothing touched. *)
Definition pass (h : Handler) : Result :=
  {| final := h; sent := None; completion := Returned |}.

(** Lines 36-58: the guards.  [Some (group_id, message_content)] when the
    message gets past all of them. *)
Definition accepted (cfg : Config) (message : option MaiMessages)
    : option (string * string) :=
  match message with
  | None => None
  | Some m =>
      if negb (is_group_message m) then None
      else
        match stream_id m with
        | None => None
        | Some group_id =>
            if String.eqb group_id "" then None
            else
              match plain_text m with
              | None => None
              | Some message_content =>
                  if String.eqb message_content ""
                     || (max_message_length cfg
                           <? Z.of_nat (py_len message_content))
                  then None
                  else Some (group_id, message_content)
              end
        end
  end.

(** Lines 64-65 and 68-69: [if k not in d: d[k] = v]. *)
Definition setdefault {V} (k : string) (v : V) (d : gmap string V)
    : gmap string V :=
  match d !! k with
  | None => <[k := v]> d
  | Some _ => d
  end.

Definition init_last_repeated : LastRepeated :=
  {| lr_content := ""; lr_timestamp := None |}.

(** [self.group_messages[group_id]] and
    [self.last_repeated_content[group_id]] as read after lines 63-69. *)
Definition group_list (h : Handler) (group_id : string) : list Msg :=
  default [] (group_messages h !! group_id).

Definition group_last (h : Handler) (group_id : string) : LastRepeated :=
  default init_last_repeated (last_repeated_content h !! group_id).

(** Lines 60-126, for a message that got past the guards.  After lines
    63-69 both dicts have an entry for the group, so the [default]s below
    never fall back.  The send of line 118 comes before the record of lines
    121-124: when it raises, the call ends there. *)
Definition process (cfg : Config) (send : SendOutcome) (current_time : Z)
    (group_id message_content : string) (h : Handler) : Result :=
  (* 64-65 *)
  let group_messages1 := setdefault group_id [] (group_messages h) in
  (* 68-69 *)
  let last_repeated1 :=
    setdefault group_id init_last_repeated (last_repeated_content h) in
  (* 72-92 *)
  let window :=
    update_window cfg current_time message_content
      (default [] (group_messages1 !! group_id)) in
  let group_messages2 := <[group_id := window]> group_messages1 in
  (* 95-98 *)
  let same_count := count_same message_content window 0 in
  (* 101-114 *)
  let last := default init_last_repeated (last_repeated1 !! group_id) in
  if can_repeat cfg current_time message_content same_count last then
    (* 118 *)
    match send with
    | SendRaises =>
        {| final := {| group_messages := group_messages2;
                       last_repeated_content := last_repeated1 |};
           sent := Some (group_id, message_content);
           completion := Raised |}
    | SendReturns =>
        (* 121-124 *)
        {| final := {| group_messages := group_messages2;
                       last_repeated_content :=
                         <[group_id := {| lr_content := message_content;
                                          lr_timestamp := Some current_time |}]>
                           last_repeated1 |};
           sent := Some (group_id, message_content);
           completion := Returned |}
    end
  else
    {| final := {| group_messages := group_messages2;
                   last_repeated_content := last_repeated1 |};
       sent := None;
       completion := Returned |}.

(** [RepeatSameContentHandler.execute]. *)
Definition execute (cfg : Config) (send : SendOutcome) (current_time : Z)
    (message : option MaiMessages) (h : Handler) : Result :=
  match accepted cfg message with
  | None => pass h
  | Some (group_id, message_content) =>
      process cfg send current_time group_id message_content h
  end.

(** The window of the group after lines 72-92, and the decision of lines
    95-114, as functions of the state before the call. *)
Definition window_after (cfg : Config) (now : Z) (g c : string) (h : Handler)
    : list Msg :=
  update_window cfg now c (group_list h g).

Definition triggers (cfg : Config) (now : Z) (g c : string) (h : Handler)
    : bool :=
  can_repeat cfg now c (count_same c (window_after cfg now g c h) 0)
    (group_last h g).

(** ** Sequences of calls *)

(** One delivery of the host: the clock reading during the call, the
    message, and what [send_text] would do. *)
Record Event := {
  ev_time : Z;
  ev_message : option MaiMessages;
  ev_send : SendOutcome
}.

Definition step (cfg : Config) (h : Handler) (e : Event) : Result :=
  execute cfg (ev_send e) (ev_time e) (ev_message e) h.

(** The state after a sequence of deliveries; the handler object lives on
    after a call that raised. *)
Definition run (cfg : Config) (h : Handler) (es : list Event) : Handler :=
  foldl (fun h e => final (step cfg h e)) h es.

(** The [send_text] calls made along a sequence, one slot per delivery. *)
Fixpoint echoes (cfg : Config) (h : Handler) (es : list Event)
    : list (option (string * string)) :=
  match es with
  | [] => []
  | e :: es' =>
      let r := step cfg h e in sent r :: echoes cfg (final r) es'
  end.

(** A group message with the given group id and text. *)
Definition group_msg (group_id text : string) : option MaiMessages :=
  Some {| is_group_message := true;
          stream_id := Some group_id;
          plain_text := Some text |}.

(** The arrival of such a message at clock reading [t]. *)
Definition arrival (t : Z) (group_id text : string) (send : SendOutcome)
    : Event :=
  {| ev_time := t; ev_message := group_msg group_id text; ev_send := send |}.

(** The same with the time in whole seconds and a send that returns. *)
Definition deliver (seconds : Z) (group_id text : string) : Event :=
  arrival (seconds * microseconds_per_second) group_id text SendReturns.

(** ** Sample configurations and texts *)

(** The default configuration with a message window of two entries. *)
Definition small_window_config : Config := {|
  time_window_minutes := 5;
  message_window_size := 2;
  required_same_count := 3;
  max_message_length := 100;
  repeat_cooldown_minutes := 10
|}.

(** The default configuration with a time window of minus one minute. *)
Definition negative_time_config : Config := {|
  time_window_minutes := -1;
  message_window_size := 10;
  required_same_count := 3;
  max_message_length := 100;
  repeat_cooldown_minutes := 10
|}.

(** The default configuration with a required count of one. *)
Definition single_count_config : Config := {|
  time_window_minutes := 5;
  message_window_size := 10;
  required_same_count := 1;
  max_message_length := 100;
  repeat_cooldown_minutes := 10
|}.

(** The default configuration with a message window of size zero. *)
Definition zero_window_config : Config := {|
  time_window_minutes := 5;
  message_window_size := 0;
  required_same_count := 3;
  max_message_length := 100;
  repeat_cooldown_minutes := 10
|}.

(** A text of [n] characters. *)
Fixpoint text_of_length (n : nat) : string :=
  match n with
  | O => ""
  | S n' => String.append "x" (text_of_length n')
  end.

(** A text of [n] characters of three bytes each (U+4E2D). *)
Fixpoint wide_text_of_length (n : nat) : string :=
  match n with
  | O => ""
  | S n' => String.append "中" (wide_text_of_length n')
  end.

(** ** What the spec says, in its own words *)

(** "A full scan that keeps every entry with
    [now - entry.timestamp <= timeWindowMinutes * 60]". *)
Definition full_scan (now time_window_seconds : Z) (messages : list Msg)
    : list Msg :=
  filter
    (fun m => now - time m <= time_window_seconds * microseconds_per_second)
    messages.

(** "Timestamps are monotonically non-decreasing in list order". *)
Definition nondecreasing (messages : list Msg) : Prop :=
  Sorted (fun a b => time a <= time b) messages.

(** "The count of entries equal to [C] within the current window". *)
Definition occurrences (c : string) (messages : list Msg) : Z :=
  Z.of_nat (length (filter (fun m => content m = c) messages)).

(** The cooldown condition: "[lastRepeat] is empty, or
    [lastRepeat.content != C], or elapsed time since [lastRepeat.timestamp]
    exceeds [repeatCooldownMinutes]". *)
Definition cooldown_condition (cfg : Config) (now : Z) (c : string)
    (last : option LastRepeated) : Prop :=
  match last with
  | None => True
  | Some l =>
      lr_timestamp l = None ∨ lr_content l ≠ c ∨
      ∃ t, lr_timestamp l = Some t ∧
           repeat_cooldown_minutes cfg * 60 * microseconds_per_second < now - t
  end.

(** "Every entry satisfies [now - entry.timestamp <= timeWindowMinutes * 60]
    seconds". *)
Definition within_time_window (cfg : Config) (now : Z) (m : Msg) : Prop :=
  now - time m <= time_window_minutes cfg * 60 * microseconds_per_second.

(** "The length of the group's list is at most [messageWindowSize]", for
    every group. *)
Definition window_bounded (cfg : Config) (h : Handler) : Prop :=
  ∀ g, Z.of_nat (length (group_list h g)) <= message_window_size cfg.

(** "The message is absent, the message is not a group message, the group id
    is empty, the content is empty, or the content's length exceeds
    [maxMessageLength]"; an empty id or content is [None] or the empty
    string, both falsy in Python. *)
Definition no_op_input (cfg : Config) (message : option MaiMessages) : Prop :=
  message = None ∨
  ∃ m, message = Some m ∧
    (is_group_message m = false ∨
     stream_id m = None ∨ stream_id m = Some "" ∨
     plain_text m = None ∨ plain_text m = Some "" ∨
     ∃ c, plain_text m = Some c ∧
          max_message_length cfg < Z.of_nat (py_len c)).

(** ** Histories *)

(** The entry a delivery appends to the list of group [g] (lines 72-75):
    one when the guards let the message through for [g], none otherwise. *)
Definition entry_for (cfg : Config) (g : string) (e : Event) : option Msg :=
  match accepted cfg (ev_message e) with
  | Some (g', c) =>
      if decide (g' = g)
      then Some {| time := ev_time e; content := c |} else None
  | None => None
  end.

(** Everything a sequence of deliveries appended to the list of [g], in
    arrival order, pruned or not. *)
Definition history (cfg : Config) (g : string) (es : list Event) : list Msg :=
  omap (entry_for cfg g) es.

(** The clock readings of the deliveries never step back. *)
Definition clock_monotone (es : list Event) : Prop :=
  Sorted (fun a b => ev_time a <= ev_time b) es.

(** The entries of a history that are inside the time window at its newest
    entry, capped to the message window. *)
Definition recent_history (cfg : Config) (entries : list Msg) : list Msg :=
  match last entries with
  | None => []
  | Some newest =>
      limit_window (message_window_size cfg)
        (full_scan (time newest) (time_window_minutes cfg * 60) entries)
  end.

(** A record has no time stamp exactly when its content is empty. *)
Definition record_consistent (last : LastRepeated) : Prop :=
  lr_timestamp last = None ↔ lr_content last = "".

(** Two handlers hold the same for group [g]. *)
Definition agree_on (g : string) (h h' : Handler) : Prop :=
  group_messages h !! g = group_messages h' !! g ∧
  last_repeated_content h !! g = last_repeated_content h' !! g.

(** The deliveries whose message the guards let through for group [g]. *)
Definition for_group (cfg : Config) (g : string) (e : Event) : Prop :=
  fst <$> accepted cfg (ev_message e) = Some g.

(** The contents echoed in group [g], in order. *)
Definition echoes_in (g : string) (outs : list (option (string * string)))
    : list string :=
  omap (fun o => match o with
                 | Some (g', c) => if decide (g' = g) then Some c else None
                 | None => None
                 end) outs.

(** ** Texts: [len] against the byte count *)

Lemma py_len_le_bytes s : (py_len s ≤ String.length s)%nat.
Proof.
  induction s as [|a s IH]; simpl; [done|].
  destruct (is_continuation_byte a); lia.
Qed.

Lemma py_len_text_of_length n : py_len (text_of_length n) = n.
Proof.
  induction n as [|n IH]; [done|].
  change (S (py_len (text_of_length n)) = S n). by rewrite IH.
Qed.

Lemma py_len_wide_text_of_length n : py_len (wide_text_of_length n) = n.
Proof.
  induction n as [|n IH]; [done|].
  change (S (py_len (wide_text_of_length n)) = S n). by rewrite IH.
Qed.

Lemma bytes_wide_text_of_length n :
  String.length (wide_text_of_length n) = (3 * n)%nat.
Proof.
  induction n as [|n IH]; [done|].
  change (S (S (S (String.length (wide_text_of_length n)))) = (3 * S n)%nat).
  rewrite IH. lia.
Qed.

(** ** Lists: the prune loop, the cap and the count *)

Section window_lemmas.
Context (now tws : Z).

Lemma total_seconds_le_spec delta s :
  total_seconds_le delta s = true ↔ delta <= s * microseconds_per_second.
Proof. unfold total_seconds_le. apply Z.leb_le. Qed.

Lemma total_seconds_gt_spec delta s :
  total_seconds_gt delta s = true ↔ s * microseconds_per_second < delta.
Proof. unfold total_seconds_gt. apply Z.ltb_lt. Qed.

Lemma filter_loop_acc rest filtered :
  filter_loop now tws rest filtered
  = filtered ++ filter_loop now tws rest [].
Proof.
  revert filtered. induction rest as [|m rest IH]; intros filtered; simpl.
  - by rewrite app_nil_r.
  - destruct (total_seconds_le _ _).
    + rewrite IH, (IH [m]). by rewrite app_assoc.
    + by rewrite app_nil_r.
Qed.

Lemma prune_nil : prune_time_window now tws [] = [].
Proof. reflexivity. Qed.

(** The loop seen from the list's end: the newest entry decides whether
    anything is kept at all. *)
Lemma prune_snoc l m :
  prune_time_window now tws (l ++ [m])
  = if total_seconds_le (now - time m) tws
    then prune_time_window now tws l ++ [m] else [].
Proof.
  unfold prune_time_window. rewrite reverse_snoc. simpl.
  destruct (total_seconds_le _ _); [|done].
  rewrite filter_loop_acc, reverse_app. reflexivity.
Qed.

Lemma prune_suffix l : prune_time_window now tws l `suffix_of` l.
Proof.
  induction l as [|m l IH] using rev_ind; [done|].
  rewrite prune_snoc. destruct (total_seconds_le _ _).
  - by apply suffix_app.
  - apply suffix_nil.
Qed.

Lemma prune_Forall l :
  Forall (fun m => now - time m <= tws * microseconds_per_second)
    (prune_time_window now tws l).
Proof.
  induction l as [|m l IH] using rev_ind; [constructor|].
  rewrite prune_snoc.
  destruct (total_seconds_le _ _) eqn:E; [|constructor].
  apply Forall_app. split; [done|].
  repeat constructor. by apply total_seconds_le_spec.
Qed.

(** Entries at the end that are all inside the window are all kept. *)
Lemma prune_app_keep l tail :
  Forall (fun m => now - time m <= tws * microseconds_per_second) tail →
  prune_time_window now tws (l ++ tail)
  = prune_time_window now tws l ++ tail.
Proof.
  induction tail as [|m tail IH] using rev_ind; intros Hall.
  - by rewrite !app_nil_r.
  - rewrite Forall_app, Forall_singleton in Hall.
    destruct Hall as [Htail Hm].
    rewrite app_assoc, prune_snoc.
    apply total_seconds_le_spec in Hm. rewrite Hm.
    rewrite IH by done. by rewrite app_assoc.
Qed.
End window_lemmas.

Section cap_lemmas.
Context (w : Z).

(** Whatever the size, the cap drops entries from the front only. *)
Lemma limit_window_drop l : ∃ k, limit_window w l = drop k l.
Proof.
  unfold limit_window, py_slice_from.
  destruct (w <? Z.of_nat (length l)); [by eexists|].
  by exists 0%nat.
Qed.

Lemma limit_window_suffix l : limit_window w l `suffix_of` l.
Proof. destruct (limit_window_drop l) as [k ->]. apply suffix_drop. Qed.

(** With a positive size the cap keeps exactly the last [w] entries. *)
Lemma limit_window_pos l :
  1 <= w → limit_window w l = drop (length l - Z.to_nat w) l.
Proof.
  intros Hw. unfold limit_window, py_slice_from.
  destruct (Z.ltb_spec w (Z.of_nat (length l))) as [Hlt|Hge].
  - destruct (Z.ltb_spec (- w) 0); [|lia]. f_equal. lia.
  - replace (length l - Z.to_nat w)%nat with 0%nat by lia. done.
Qed.

Lemma limit_window_length l :
  1 <= w → Z.of_nat (length (limit_window w l)) <= w.
Proof.
  intros Hw. rewrite limit_window_pos by done. rewrite length_drop. lia.
Qed.

(** A tail that fits under the cap survives it. *)
Lemma limit_window_app_keep l tail :
  Z.of_nat (length tail) <= w →
  ∃ l', l' `suffix_of` l ∧ limit_window w (l ++ tail) = l' ++ tail.
Proof.
  intros Hfit. destruct (Z.le_gt_cases 1 w) as [Hw|Hw].
  - exists (drop (length (l ++ tail) - Z.to_nat w) l). split.
    + apply suffix_drop.
    + rewrite limit_window_pos by done.
      apply drop_app_le. rewrite length_app. lia.
  - assert (tail = []) as -> by (destruct tail; simpl in *; [done|lia]).
    exists (limit_window w l). split; [apply limit_window_suffix|].
    by rewrite !app_nil_r.
Qed.

(** The slip at size zero: [l[-0:]] is the whole list. *)
Lemma limit_window_zero l : w = 0 → limit_window w l = l.
Proof.
  intros ->. unfold limit_window, py_slice_from. simpl.
  destruct (0 <? Z.of_nat (length l)); [|done].
  by replace (Z.to_nat ((- 0) `min` Z.of_nat (length l))) with 0%nat by lia.
Qed.
End cap_lemmas.

Section count_lemmas.
Context (c : string).

Lemma count_same_acc l n : count_same c l n = n + count_same c l 0.
Proof.
  revert n. induction l as [|m l IH]; intros n; simpl; [lia|].
  destruct (String.eqb _ _); [|apply IH].
  rewrite IH, (IH (0 + 1)). lia.
Qed.

(** The counting loop computes the number of entries whose content is
    the incoming one. *)
Lemma count_same_occurrences l : count_same c l 0 = occurrences c l.
Proof.
  unfold occurrences. induction l as [|m l IH]; [done|].
  simpl. rewrite count_same_acc, IH.
  destruct (String.eqb_spec (content m) c) as [Heq|Hne].
  - rewrite filter_cons_True by done. simpl. lia.
  - rewrite filter_cons_False by done. lia.
Qed.

Lemma occurrences_app l1 l2 :
  occurrences c (l1 ++ l2) = occurrences c l1 + occurrences c l2.
Proof. unfold occurrences. rewrite filter_app, length_app. lia. Qed.

Lemma occurrences_none l :
  Forall (fun m => content m ≠ c) l → occurrences c l = 0.
Proof.
  unfold occurrences. induction 1 as [|m l Hm _ IH]; [done|].
  by rewrite filter_cons_False.
Qed.

Lemma occurrences_all l :
  Forall (fun m => content m = c) l →
  occurrences c l = Z.of_nat (length l).
Proof.
  unfold occurrences. induction 1 as [|m l Hm _ IH]; [done|].
  rewrite filter_cons_True by done. simpl. lia.
Qed.
End count_lemmas.

(** ** The prune loop against a full scan *)

#[local] Instance time_le_trans : Transitive (fun a b : Msg => time a <= time b).
Proof. intros a b d Hab Hbd. simpl in *. lia. Qed.

Lemma full_scan_all_outside now tws l :
  Forall (fun m => ¬ now - time m <= tws * microseconds_per_second) l →
  full_scan now tws l = [].
Proof.
  unfold full_scan. induction 1 as [|m l Hm _ IH]; [done|].
  by rewrite filter_cons_False.
Qed.

(** C9. When the time stamps of the list are non-decreasing in list order,
    the loop of lines 79-88 (walk back from the newest entry, stop at the
    first one outside the time window) keeps exactly the entries a full
    scan with the test [now - time <= time_window_seconds] keeps. *)
Theorem prune_time_window_full_scan (now time_window_seconds : Z)
    (messages : list Msg) :
  nondecreasing messages →
  prune_time_window now time_window_seconds messages
  = full_scan now time_window_seconds messages.
Proof.
  intros Hsorted. apply Sorted_StronglySorted in Hsorted; [|apply _].
  induction messages as [|m l IH] using rev_ind; [done|].
  apply StronglySorted_app in Hsorted as (Hle & Hl & _).
  rewrite prune_snoc.
  replace (full_scan now time_window_seconds (l ++ [m]))
    with (full_scan now time_window_seconds l
          ++ full_scan now time_window_seconds [m])
    by (unfold full_scan; by rewrite filter_app).
  destruct (total_seconds_le _ _) eqn:E.
  - (* the newest entry is inside: the loop goes on as on the rest *)
    apply total_seconds_le_spec in E. rewrite IH by done.
    f_equal. unfold full_scan. by rewrite filter_singleton_True.
  - (* the newest entry is outside: so is every older one *)
    assert (¬ now - time m <= time_window_seconds * microseconds_per_second)
      as Hout by (rewrite <- total_seconds_le_spec; congruence).
    rewrite (full_scan_all_outside _ _ [m]) by (by repeat constructor).
    rewrite app_nil_r. symmetry. apply full_scan_all_outside.
    apply Forall_forall. intros x Hx.
    assert (time x <= time m) by (apply Hle; [done|by left]). lia.
Qed.

Lemma prune_time_window_full_scan_witness :
  let messages :=
    [ {| time := 0; content := "A" |}; {| time := 100000000; content := "B" |};
      {| time := 400000000; content := "A" |} ] in
  nondecreasing messages ∧
  prune_time_window 400000000 300 messages = full_scan 400000000 300 messages.
Proof.
  split.
  - repeat constructor; simpl; lia.
  - apply (prune_time_window_full_scan 400000000 300).
    repeat constructor; simpl; lia.
Defined.

(** ** One call of the handler *)

Section dict_lemmas.
Context {V : Type}.
Implicit Types (d : gmap string V) (k : string) (v : V).

Lemma setdefault_lookup k v d :
  setdefault k v d !! k = Some (default v (d !! k)).
Proof.
  unfold setdefault. destruct (d !! k) eqn:E; [done|].
  by rewrite lookup_insert_eq.
Qed.

Lemma setdefault_lookup_ne k k' v d :
  k ≠ k' → setdefault k v d !! k' = d !! k'.
Proof.
  intros Hne. unfold setdefault. destruct (d !! k); [done|].
  by rewrite lookup_insert_ne.
Qed.
End dict_lemmas.

Section process_lemmas.
Context (cfg : Config) (send : SendOutcome) (now : Z) (g c : string)
        (h : Handler).

Lemma process_sent :
  sent (process cfg send now g c h)
  = if triggers cfg now g c h then Some (g, c) else None.
Proof.
  unfold process, triggers, window_after, group_list, group_last.
  rewrite !setdefault_lookup. simpl.
  destruct (can_repeat _ _ _ _ _); [by destruct send|done].
Qed.

Lemma process_completion :
  completion (process cfg send now g c h)
  = if triggers cfg now g c h
    then match send with SendReturns => Returned | SendRaises => Raised end
    else Returned.
Proof.
  unfold process, triggers, window_after, group_list, group_last.
  rewrite !setdefault_lookup. simpl.
  destruct (can_repeat _ _ _ _ _); [by destruct send|done].
Qed.

Lemma process_group_messages :
  group_messages (final (process cfg send now g c h)) !! g
  = Some (window_after cfg now g c h).
Proof.
  unfold process, window_after, group_list.
  rewrite !setdefault_lookup. simpl.
  destruct (can_repeat _ _ _ _ _); [destruct send|]; simpl;
    by rewrite lookup_insert_eq.
Qed.

Lemma process_group_messages_ne g' :
  g ≠ g' →
  group_messages (final (process cfg send now g c h)) !! g'
  = group_messages h !! g'.
Proof.
  intros Hne. unfold process.
  destruct (can_repeat _ _ _ _ _); [destruct send|]; simpl;
    by rewrite lookup_insert_ne, setdefault_lookup_ne.
Qed.

Lemma process_last_repeated :
  last_repeated_content (final (process cfg send now g c h)) !! g
  = Some (if triggers cfg now g c h
          then match send with
               | SendReturns => {| lr_content := c; lr_timestamp := Some now |}
               | SendRaises => group_last h g
               end
          else group_last h g).
Proof.
  unfold process, triggers, window_after, group_list, group_last.
  rewrite !setdefault_lookup. simpl.
  destruct (can_repeat _ _ _ _ _); [destruct send|]; simpl;
    by rewrite ?lookup_insert_eq, ?setdefault_lookup.
Qed.

Lemma process_last_repeated_ne g' :
  g ≠ g' →
  last_repeated_content (final (process cfg send now g c h)) !! g'
  = last_repeated_content h !! g'.
Proof.
  intros Hne. unfold process.
  destruct (can_repeat _ _ _ _ _); [destruct send|]; simpl;
    by rewrite ?lookup_insert_ne, setdefault_lookup_ne.
Qed.

Lemma process_group_list :
  group_list (final (process cfg send now g c h)) g
  = window_after cfg now g c h.
Proof. unfold group_list at 1. by rewrite process_group_messages. Qed.

Lemma process_group_last :
  group_last (final (process cfg send now g c h)) g
  = if triggers cfg now g c h
    then match send with
         | SendReturns => {| lr_content := c; lr_timestamp := Some now |}
         | SendRaises => group_last h g
         end
    else group_last h g.
Proof. unfold group_last at 1. by rewrite process_last_repeated. Qed.
End process_lemmas.

(** The decision of lines 101-114, read as a proposition. *)
Lemma can_repeat_spec cfg now c n last :
  can_repeat cfg now c n last = true ↔
  required_same_count cfg <= n ∧
  (c ≠ lr_content last ∨ lr_timestamp last = None ∨
   ∃ t, lr_timestamp last = Some t ∧
        repeat_cooldown_minutes cfg * 60 * microseconds_per_second < now - t).
Proof.
  unfold can_repeat.
  destruct (Z.leb_spec (required_same_count cfg) n) as [Hn|Hn];
    [|split; [done|lia]].
  destruct (String.eqb_spec c (lr_content last)) as [Heq|Hne]; simpl;
    [|by intuition].
  destruct (lr_timestamp last) as [t|]; [|by intuition].
  rewrite total_seconds_gt_spec. split.
  - intros Ht. split; [done|]. right. right. by exists t.
  - intros (_ & [Hne | [Hnone | (t' & Ht' & Hlt)]]); try done.
    by injection Ht' as ->.
Qed.

Lemma triggers_spec cfg now g c h :
  triggers cfg now g c h = true ↔
  required_same_count cfg <= occurrences c (window_after cfg now g c h) ∧
  (c ≠ lr_content (group_last h g) ∨ lr_timestamp (group_last h g) = None ∨
   ∃ t, lr_timestamp (group_last h g) = Some t ∧
        repeat_cooldown_minutes cfg * 60 * microseconds_per_second < now - t).
Proof. unfold triggers. by rewrite can_repeat_spec, count_same_occurrences. Qed.

(** What the guards let through. *)
Lemma accepted_Some cfg message g c :
  accepted cfg message = Some (g, c) ↔
  ∃ m, message = Some m ∧ is_group_message m = true ∧
       stream_id m = Some g ∧ g ≠ "" ∧ plain_text m = Some c ∧ c ≠ "" ∧
       Z.of_nat (py_len c) <= max_message_length cfg.
Proof.
  unfold accepted. split.
  - destruct message as [m|]; [|done].
    destruct (is_group_message m) eqn:Hgroup; [|done]. simpl.
    destruct (stream_id m) as [g'|] eqn:Hid; [|done].
    destruct (String.eqb_spec g' ""); [done|].
    destruct (plain_text m) as [c'|] eqn:Htext; [|done].
    destruct (String.eqb_spec c' ""); [done|]. simpl.
    destruct (Z.ltb_spec (max_message_length cfg) (Z.of_nat (py_len c')));
      [done|].
    intros [= <- <-]. by exists m.
  - intros (m & -> & -> & -> & Hg & -> & Hc & Hlen). simpl.
    destruct (String.eqb_spec g ""); [done|].
    destruct (String.eqb_spec c ""); [done|]. simpl.
    destruct (Z.ltb_spec (max_message_length cfg) (Z.of_nat (py_len c)));
      [lia|done].
Qed.

Lemma accepted_group_msg cfg g c :
  g ≠ "" → c ≠ "" → Z.of_nat (py_len c) <= max_message_length cfg →
  accepted cfg (group_msg g c) = Some (g, c).
Proof. intros. apply accepted_Some. by eexists. Qed.

Lemma execute_accepted cfg send now message h g c :
  accepted cfg message = Some (g, c) →
  execute cfg send now message h = process cfg send now g c h.
Proof. unfold execute. by intros ->. Qed.

(** ** Inputs the guards turn away *)

Lemma no_op_input_not_accepted cfg message :
  no_op_input cfg message → accepted cfg message = None.
Proof.
  intros Hno. destruct (accepted cfg message) as [[g c]|] eqn:E; [|done].
  apply accepted_Some in E as (m & -> & Hgroup & Hid & Hg & Htext & Hc & Hlen).
  destruct Hno as [|(m' & [= <-] & Hcase)]; [done|].
  destruct Hcase as [?|[?|[?|[?|[?|(c' & ? & ?)]]]]]; simplify_eq; congruence || lia.
Qed.

(** C6. A call whose message is absent, is not a group message, has an
    empty group id, has empty content or has content longer than
    [max_message_length] returns normally without calling [send_text], and
    the handler's two dicts are exactly what they were, whatever [send_text]
    would have done. *)
Theorem rejected_input_is_no_op cfg send now message h :
  no_op_input cfg message →
  execute cfg send now message h
  = {| final := h; sent := None; completion := Returned |}.
Proof.
  intros Hno. unfold execute. by rewrite (no_op_input_not_accepted _ _ Hno).
Qed.

Lemma rejected_input_is_no_op_witness :
  let h := run default_config init [deliver 1 "g" "A"] in
  let message := group_msg "g" (text_of_length 101) in
  no_op_input default_config message ∧
  execute default_config SendRaises 2000000 message h
  = {| final := h; sent := None; completion := Returned |}.
Proof.
  assert (no_op_input default_config (group_msg "g" (text_of_length 101)))
    as Hno.
  { right. eexists. split; [reflexivity|]. do 5 right.
    eexists. split; [reflexivity|]. vm_compute. reflexivity. }
  split; [exact Hno|].
  exact (rejected_input_is_no_op default_config SendRaises 2000000
           (group_msg "g" (text_of_length 101))
           (run default_config init [deliver 1 "g" "A"]) Hno).
Defined.

(** The length guard of line 57 counts characters: a text of 34 characters
    and 102 bytes is within a limit of 100, is stored, and is echoed on its
    third arrival; a text of 101 such characters is turned away. *)
Example length_guard_counts_characters :
  let text := wide_text_of_length 34 in
  py_len text = 34%nat ∧ String.length text = 102%nat ∧
  accepted default_config (group_msg "g" text) = Some ("g", text) ∧
  echoes default_config init
    [deliver 1 "g" text; deliver 2 "g" text; deliver 3 "g" text]
  = [None; None; Some ("g", text)] ∧
  accepted default_config (group_msg "g" (wide_text_of_length 101)) = None.
Proof. vm_compute. done. Qed.

(** ** Groups do not see each other *)

(** C8. A call for group [g] leaves the entries of every other group [g']
    in both dicts as they were; and what the call does for [g] (the
    [send_text] call, how it ends, and [g]'s entries afterwards) is the same
    from any two states that agree on [g]'s entries, whatever the other
    groups hold. *)
Theorem group_isolation cfg send now message h h' g g' c :
  accepted cfg message = Some (g, c) →
  g' ≠ g →
  group_messages h' !! g = group_messages h !! g →
  last_repeated_content h' !! g = last_repeated_content h !! g →
  let r := execute cfg send now message h in
  let r' := execute cfg send now message h' in
  (group_messages (final r) !! g' = group_messages h !! g' ∧
   last_repeated_content (final r) !! g' = last_repeated_content h !! g') ∧
  (sent r' = sent r ∧ completion r' = completion r ∧
   group_messages (final r') !! g = group_messages (final r) !! g ∧
   last_repeated_content (final r') !! g
   = last_repeated_content (final r) !! g).
Proof.
  intros Hacc Hne Hlist Hlast r r'. subst r r'.
  rewrite !(execute_accepted _ _ _ _ _ _ _ Hacc).
  assert (window_after cfg now g c h' = window_after cfg now g c h) as Hwin
    by (unfold window_after, group_list; by rewrite Hlist).
  assert (group_last h' g = group_last h g) as Hgl
    by (unfold group_last; by rewrite Hlast).
  assert (triggers cfg now g c h' = triggers cfg now g c h) as Htrig
    by (unfold triggers; by rewrite Hwin, Hgl).
  split; [split|].
  - by apply process_group_messages_ne.
  - by apply process_last_repeated_ne.
  - rewrite !process_sent, !process_completion, !process_group_messages,
      !process_last_repeated.
    by rewrite Htrig, Hwin, Hgl.
Qed.

Lemma group_isolation_witness :
  let h := run default_config init
             [deliver 1 "g1" "A"; deliver 2 "g1" "A"] in
  let h' := run default_config init
              [deliver 1 "g1" "A"; deliver 1 "g2" "A"; deliver 2 "g1" "A";
               deliver 2 "g2" "A"; deliver 2 "g2" "A"] in
  let message := group_msg "g1" "A" in
  let r := execute default_config SendReturns 3000000 message h in
  let r' := execute default_config SendReturns 3000000 message h' in
  (group_messages (final r) !! "g2" = group_messages h !! "g2" ∧
   last_repeated_content (final r) !! "g2"
   = last_repeated_content h !! "g2") ∧
  (sent r' = sent r ∧ completion r' = completion r ∧
   group_messages (final r') !! "g1" = group_messages (final r) !! "g1" ∧
   last_repeated_content (final r') !! "g1"
   = last_repeated_content (final r) !! "g1").
Proof.
  apply (group_isolation default_config SendReturns 3000000
           (group_msg "g1" "A") _ _ "g1" "g2" "A").
  - vm_compute. reflexivity.
  - vm_compute. discriminate.
  - vm_compute. reflexivity.
  - vm_compute. reflexivity.
Defined.

(** The same text repeated in two groups, interleaved: each group echoes on
    its own third message. *)
Example two_groups_trigger_independently :
  echoes default_config init
    [deliver 1 "g1" "A"; deliver 1 "g2" "A"; deliver 2 "g1" "A";
     deliver 2 "g2" "A"; deliver 3 "g1" "A"; deliver 3 "g2" "A";
     deliver 4 "g1" "A"; deliver 4 "g2" "A"]
  = [None; None; None; None; Some ("g1", "A"); Some ("g2", "A"); None; None].
Proof. vm_compute. reflexivity. Qed.

(** ** A call that triggers: what is committed, and when *)

Lemma execute_sent_inv cfg send now message h g c :
  sent (execute cfg send now message h) = Some (g, c) →
  accepted cfg message = Some (g, c) ∧ triggers cfg now g c h = true.
Proof.
  unfold execute. destruct (accepted cfg message) as [[g0 c0]|]; [|done].
  rewrite process_sent. destruct (triggers cfg now g0 c0 h) eqn:E; [|done].
  by intros [= <- <-].
Qed.

(** C7, as the code has it.  When a call triggers, the group's window of
    lines 72-92 is stored before [send_text] is awaited and stays stored
    whatever the send does.  The last-repeated record is written after the
    send: if the send returns, the record is the content and the time of
    this call and the call returns; if the send raises, the exception leaves
    [execute] and the record is the one the group had before the call (the
    empty record of lines 68-69 when it had none). *)
Theorem trigger_commit_order cfg send now message h g c :
  sent (execute cfg send now message h) = Some (g, c) →
  let r := execute cfg send now message h in
  group_messages (final r) !! g = Some (window_after cfg now g c h) ∧
  match send with
  | SendReturns =>
      completion r = Returned ∧
      last_repeated_content (final r) !! g
      = Some {| lr_content := c; lr_timestamp := Some now |}
  | SendRaises =>
      completion r = Raised ∧
      last_repeated_content (final r) !! g = Some (group_last h g)
  end.
Proof.
  intros Hsent r. subst r.
  apply execute_sent_inv in Hsent as [Hacc Htrig].
  rewrite (execute_accepted _ _ _ _ _ _ _ Hacc).
  rewrite process_group_messages, process_completion, process_last_repeated.
  rewrite Htrig. by destruct send.
Qed.

Lemma trigger_commit_order_witness :
  let h := run default_config init [deliver 1 "g" "A"; deliver 2 "g" "A"] in
  let message := group_msg "g" "A" in
  let r := execute default_config SendRaises 3000000 message h in
  sent r = Some ("g", "A") ∧
  group_messages (final r) !! "g"
  = Some (window_after default_config 3000000 "g" "A" h) ∧
  completion r = Raised ∧
  last_repeated_content (final r) !! "g" = Some (group_last h "g").
Proof.
  split; [vm_compute; reflexivity|].
  apply (trigger_commit_order default_config SendRaises 3000000
           (group_msg "g" "A")
           (run default_config init [deliver 1 "g" "A"; deliver 2 "g" "A"])
           "g" "A").
  vm_compute. reflexivity.
Defined.

(** C7, as the claim has it, fails: on the third "A" the call triggers and
    [send_text] raises; the window has the third entry, the last-repeated
    record is still the empty one, and the next "A", one second later,
    calls [send_text] again. *)
Lemma send_failure_leaves_last_repeated :
  let h := run default_config init [deliver 1 "g" "A"; deliver 2 "g" "A"] in
  let r := execute default_config SendRaises 3000000 (group_msg "g" "A") h in
  let r' := execute default_config SendReturns 4000000 (group_msg "g" "A")
              (final r) in
  sent r = Some ("g", "A") ∧ completion r = Raised ∧
  group_messages (final r) !! "g"
  = Some [ {| time := 1000000; content := "A" |};
           {| time := 2000000; content := "A" |};
           {| time := 3000000; content := "A" |} ] ∧
  last_repeated_content (final r) !! "g"
  = Some {| lr_content := ""; lr_timestamp := None |} ∧
  last_repeated_content (final r) !! "g"
  ≠ Some {| lr_content := "A"; lr_timestamp := Some 3000000 |} ∧
  sent r' = Some ("g", "A").
Proof. vm_compute. repeat split; congruence. Qed.

(** ** The time bound *)

(** C5, as the code has it.  After a call that got past the guards, every
    entry left in the list of the call's own group is at most
    [time_window_minutes * 60] seconds older than the call's clock reading. *)
Theorem time_bound_after_accepted cfg send now message h g c :
  accepted cfg message = Some (g, c) →
  Forall (within_time_window cfg now)
    (group_list (final (execute cfg send now message h)) g).
Proof.
  intros Hacc. rewrite (execute_accepted _ _ _ _ _ _ _ Hacc).
  rewrite process_group_list. unfold window_after, update_window.
  destruct (limit_window_drop (message_window_size cfg)
              (prune_time_window now (time_window_minutes cfg * 60)
                 (group_list h g ++ [{| time := now; content := c |}])))
    as [k ->].
  apply Forall_drop. apply prune_Forall.
Qed.

Lemma time_bound_after_accepted_witness :
  let h := run default_config init [deliver 0 "g" "A"; deliver 200 "g" "B"] in
  let r := execute default_config SendReturns 400000000 (group_msg "g" "C") h in
  accepted default_config (group_msg "g" "C") = Some ("g", "C") ∧
  Forall (within_time_window default_config 400000000)
    (group_list (final r) "g").
Proof.
  split; [vm_compute; reflexivity|].
  apply (time_bound_after_accepted default_config SendReturns 400000000
           (group_msg "g" "C") _ "g" "C").
  vm_compute. reflexivity.
Defined.

(** C5, as the claim has it, fails for a call the guards turn away: group
    "g" stores "A" at second 0; a message of 101 characters arrives in the
    same group at second 1000 and is a no-op, so the entry of second 0 is
    still there, 1000 seconds old against a window of 300 seconds. *)
Lemma stale_entry_after_rejected_call :
  let es := [ deliver 0 "g" "A"; deliver 1000 "g" (text_of_length 101) ] in
  let h := run default_config init es in
  group_list h "g" = [ {| time := 0; content := "A" |} ] ∧
  ¬ Forall (within_time_window default_config 1000000000) (group_list h "g").
Proof.
  intros es h.
  assert (group_list h "g" = [ {| time := 0; content := "A" |} ]) as ->
    by (vm_compute; reflexivity).
  split; [reflexivity|].
  intros Hall. apply Forall_cons in Hall as [Hold _].
  unfold within_time_window in Hold. simpl in Hold.
  unfold microseconds_per_second in Hold. lia.
Qed.

(** The same for a group other than the call's: the call for "g2" at
    second 1000 leaves the entry of "g1" from second 0 where it is. *)
Lemma stale_entry_in_other_group :
  let es := [ deliver 0 "g1" "A"; deliver 1000 "g2" "A" ] in
  let h := run default_config init es in
  group_list h "g1" = [ {| time := 0; content := "A" |} ] ∧
  ¬ Forall (within_time_window default_config 1000000000) (group_list h "g1").
Proof.
  intros es h.
  assert (group_list h "g1" = [ {| time := 0; content := "A" |} ]) as ->
    by (vm_compute; reflexivity).
  split; [reflexivity|].
  intros Hall. apply Forall_cons in Hall as [Hold _].
  unfold within_time_window in Hold. simpl in Hold.
  unfold microseconds_per_second in Hold. lia.
Qed.

(** ** The count bound *)

Lemma run_snoc cfg h es e :
  run cfg h (es ++ [e]) = final (step cfg (run cfg h es) e).
Proof. unfold run. by rewrite foldl_app. Qed.

Lemma execute_window_bounded cfg send now message h :
  1 <= message_window_size cfg →
  window_bounded cfg h →
  window_bounded cfg (final (execute cfg send now message h)).
Proof.
  intros Hw Hbound g'. unfold execute.
  destruct (accepted cfg message) as [[g c]|]; [|apply Hbound].
  destruct (decide (g = g')) as [<-|Hne].
  - rewrite process_group_list. by apply limit_window_length.
  - unfold group_list. rewrite process_group_messages_ne by done.
    apply Hbound.
Qed.

(** With a window size of at least one, the cap of lines 91-92 holds for
    every group after every sequence of calls. *)
Lemma run_window_bounded cfg es :
  1 <= message_window_size cfg →
  window_bounded cfg (run cfg init es).
Proof.
  intros Hw. induction es as [|e es IH] using rev_ind.
  - intros g. unfold group_list. simpl. rewrite lookup_empty. simpl. lia.
  - rewrite run_snoc. by apply execute_window_bounded.
Qed.

Lemma run_window_bounded_witness :
  1 <= message_window_size small_window_config ∧
  window_bounded small_window_config
    (run small_window_config init
       [deliver 1 "g" "A"; deliver 2 "g" "B"; deliver 3 "g" "C"]).
Proof.
  split; [vm_compute; discriminate|].
  apply (run_window_bounded small_window_config). vm_compute. discriminate.
Defined.

(** With a window size of zero the cap does nothing: the slice [l[-0:]] of
    line 92 is the whole list. *)
Lemma update_window_zero cfg now c l :
  message_window_size cfg = 0 →
  update_window cfg now c l
  = prune_time_window now (time_window_minutes cfg * 60)
      (l ++ [{| time := now; content := c |}]).
Proof. intros Hw. unfold update_window. by apply limit_window_zero. Qed.

(** C4, at the failing input: with [message_window_size = 0] and two
    messages in one group, line 91 sees a length above the size, line 92
    takes [l[-0:]], and both entries stay: the list has length 2. *)
Theorem window_bound_broken_at_zero :
  let h := run zero_window_config init [deliver 1 "g" "A"; deliver 2 "g" "B"] in
  message_window_size zero_window_config = 0 ∧
  group_list h "g" = [ {| time := 1000000; content := "A" |};
                       {| time := 2000000; content := "B" |} ] ∧
  Z.of_nat (length (group_list h "g")) = 2.
Proof. vm_compute. done. Qed.

(** ** Runs of one content *)

(** Entries at the end of the list that are inside the time window and fit
    under the cap together with the new entry are all kept, in order, and
    what is kept before them is a suffix of the rest. *)
Lemma update_window_keep cfg now c l tail :
  0 <= time_window_minutes cfg * 60 * microseconds_per_second →
  Forall (within_time_window cfg now) tail →
  Z.of_nat (length tail) + 1 <= message_window_size cfg →
  ∃ l', l' `suffix_of` l ∧
        update_window cfg now c (l ++ tail)
        = l' ++ tail ++ [{| time := now; content := c |}].
Proof.
  intros Hpos Htail Hfit. unfold update_window.
  rewrite <- app_assoc.
  rewrite prune_app_keep.
  - destruct (limit_window_app_keep (message_window_size cfg)
                (prune_time_window now (time_window_minutes cfg * 60) l)
                (tail ++ [{| time := now; content := c |}])) as (l' & Hsuf & ->).
    + rewrite length_app. simpl. lia.
    + exists l'. split; [|done].
      etrans; [exact Hsuf|apply prune_suffix].
  - apply Forall_app. split; [exact Htail|].
    apply Forall_singleton. simpl. lia.
Qed.

Lemma Forall_suffix_of {A} (P : A → Prop) (l' l : list A) :
  l' `suffix_of` l → Forall P l → Forall P l'.
Proof. intros [k ->] Hall. by apply Forall_app in Hall as [_ ?]. Qed.

Section same_content_run.
Context (cfg : Config) (g A : string).
Hypothesis window_nonneg :
  0 <= time_window_minutes cfg * 60 * microseconds_per_second.

(** One more [A] arrives in a group whose list ends in a run of [A]s, all
    still inside the time window, with nothing equal to [A] before the run:
    the run grows by the new entry and the count is its length. *)
Lemma same_content_step send now h l tail :
  group_list h g = l ++ tail →
  Forall (fun m => content m ≠ A) l →
  Forall (fun m => content m = A) tail →
  Forall (within_time_window cfg now) tail →
  Z.of_nat (length tail) + 1 <= message_window_size cfg →
  ∃ l', Forall (fun m => content m ≠ A) l' ∧
        group_list (final (process cfg send now g A h)) g
        = l' ++ tail ++ [{| time := now; content := A |}] ∧
        occurrences A (window_after cfg now g A h)
        = Z.of_nat (length tail) + 1.
Proof.
  intros Hlist Hother Hrun Hin Hfit.
  destruct (update_window_keep cfg now A l tail window_nonneg Hin Hfit)
    as (l' & Hsuf & Hupd).
  assert (Forall (fun m => content m ≠ A) l') as Hother'
    by (by eapply Forall_suffix_of).
  exists l'. rewrite process_group_list. unfold window_after.
  rewrite Hlist, Hupd. split; [done|]. split; [done|].
  rewrite !occurrences_app, (occurrences_none A l') by done.
  rewrite (occurrences_all A tail) by done.
  rewrite (occurrences_all A [_]) by (by repeat constructor).
  simpl. lia.
Qed.
End same_content_run.

(** An echo is made only by a call that got past the guards, whose count of
    entries equal to the content, in the window as stored by this call, is
    at least [required_same_count], and for which the cooldown condition
    holds of the record the group had before the call. *)
Lemma echo_only_if cfg send now message h g c :
  sent (execute cfg send now message h) = Some (g, c) →
  accepted cfg message = Some (g, c) ∧
  required_same_count cfg
  <= occurrences c (group_list (final (execute cfg send now message h)) g) ∧
  cooldown_condition cfg now c (last_repeated_content h !! g).
Proof.
  intros Hsent. apply execute_sent_inv in Hsent as [Hacc Htrig].
  split; [done|].
  rewrite (execute_accepted _ _ _ _ _ _ _ Hacc), process_group_list.
  apply triggers_spec in Htrig as [Hcount Hcool]. split; [done|].
  unfold cooldown_condition, group_last in *.
  destruct (last_repeated_content h !! g) as [last|]; [|done]. simpl in Hcool.
  destruct Hcool as [Hne | [Hnone | Hlate]]; [right; left; congruence|by left|].
  by right; right.
Qed.

Lemma no_trigger_below_count cfg now g c h :
  occurrences c (window_after cfg now g c h) < required_same_count cfg →
  triggers cfg now g c h = false.
Proof.
  intros Hlow. destruct (triggers cfg now g c h) eqn:E; [|done].
  apply triggers_spec in E as [Hcount _]. lia.
Qed.

Lemma process_no_trigger cfg send now g c h :
  triggers cfg now g c h = false →
  sent (process cfg send now g c h) = None ∧
  group_last (final (process cfg send now g c h)) g = group_last h g.
Proof. intros Hno. by rewrite process_sent, process_group_last, Hno. Qed.

(** ** Trigger on the third identical message *)

(** C1, as the code has it.  With [required_same_count = 3] and a message
    window of at least three entries, in a group whose list holds no entry
    with content [A] and whose last-repeated record is not for [A], three
    arrivals of the non-empty text [A] of at most [max_message_length]
    characters ([len], not bytes), each earlier one inside the time window
    when a later one arrives, make no [send_text] call on the first and the
    second arrival and the call [send_text(g, A)] on the third.  In general a call
    makes an echo only if the count of entries equal to the content in the
    stored window is at least [required_same_count] and the cooldown
    condition holds. *)
Theorem third_identical_message_triggers cfg h g A t1 t2 t3 s1 s2 s3 :
  required_same_count cfg = 3 →
  3 <= message_window_size cfg →
  g ≠ "" → A ≠ "" →
  Z.of_nat (py_len A) <= max_message_length cfg →
  0 <= time_window_minutes cfg * 60 * microseconds_per_second →
  t2 - t1 <= time_window_minutes cfg * 60 * microseconds_per_second →
  t3 - t1 <= time_window_minutes cfg * 60 * microseconds_per_second →
  t3 - t2 <= time_window_minutes cfg * 60 * microseconds_per_second →
  Forall (fun m => content m ≠ A) (group_list h g) →
  lr_content (group_last h g) ≠ A →
  echoes cfg h [arrival t1 g A s1; arrival t2 g A s2; arrival t3 g A s3]
  = [None; None; Some (g, A)] ∧
  (∀ send now message h' g' c,
     sent (execute cfg send now message h') = Some (g', c) →
     accepted cfg message = Some (g', c) ∧
     required_same_count cfg
     <= occurrences c
          (group_list (final (execute cfg send now message h')) g') ∧
     cooldown_condition cfg now c (last_repeated_content h' !! g')).
Proof.
  intros Hreq Hcap Hg HA Hlen Hpos H12 H13 H23 Hfresh Hlast.
  split; [|intros; by apply echo_only_if].
  pose proof (accepted_group_msg cfg g A Hg HA Hlen) as Hacc.
  simpl. unfold step, arrival. simpl.
  rewrite !(execute_accepted _ _ _ _ _ _ _ Hacc).
  (* first arrival *)
  destruct (same_content_step cfg g A Hpos s1 t1 h (group_list h g) [])
    as (l1 & Hl1 & Hlist1 & Hocc1);
    [by rewrite app_nil_r|done|constructor|constructor|simpl; lia|].
  destruct (process_no_trigger cfg s1 t1 g A h) as [-> Hlast1];
    [apply no_trigger_below_count; rewrite Hocc1; simpl; lia|].
  set (h1 := final (process cfg s1 t1 g A h)) in *.
  (* second arrival *)
  destruct (same_content_step cfg g A Hpos s2 t2 h1 l1
              [{| time := t1; content := A |}])
    as (l2 & Hl2 & Hlist2 & Hocc2);
    [done|done|by repeat constructor
    |repeat constructor; unfold within_time_window; simpl; lia|simpl; lia|].
  destruct (process_no_trigger cfg s2 t2 g A h1) as [-> Hlast2];
    [apply no_trigger_below_count; rewrite Hocc2; simpl; lia|].
  set (h2 := final (process cfg s2 t2 g A h1)) in *.
  (* third arrival *)
  destruct (same_content_step cfg g A Hpos s3 t3 h2 l2
              [{| time := t1; content := A |}; {| time := t2; content := A |}])
    as (l3 & Hl3 & Hlist3 & Hocc3);
    [done|done|by repeat constructor
    |repeat constructor; unfold within_time_window; simpl; lia|simpl; lia|].
  rewrite process_sent.
  assert (triggers cfg t3 g A h2 = true) as ->; [|done].
  apply triggers_spec. rewrite Hocc3. split; [simpl; lia|].
  left. rewrite Hlast2, Hlast1. congruence.
Qed.

Lemma third_identical_message_triggers_witness :
  let A := wide_text_of_length 34 in
  echoes default_config init
    [arrival 1000000 "g" A SendReturns; arrival 2000000 "g" A SendRaises;
     arrival 3000000 "g" A SendReturns]
  = [None; None; Some ("g", A)] ∧
  (∀ send now message h' g' c,
     sent (execute default_config send now message h') = Some (g', c) →
     accepted default_config message = Some (g', c) ∧
     required_same_count default_config
     <= occurrences c
          (group_list (final (execute default_config send now message h')) g') ∧
     cooldown_condition default_config now c
       (last_repeated_content h' !! g')).
Proof.
  intros A.
  apply (third_identical_message_triggers default_config init "g" A
           1000000 2000000 3000000 SendReturns SendRaises SendReturns).
  - reflexivity.
  - vm_compute. discriminate.
  - discriminate.
  - vm_compute. discriminate.
  - vm_compute. discriminate.
  - vm_compute. discriminate.
  - vm_compute. discriminate.
  - vm_compute. discriminate.
  - vm_compute. discriminate.
  - vm_compute. constructor.
  - vm_compute. discriminate.
Defined.

(** C1, as the claim has it, fails when the message window is smaller than
    the required count: with [message_window_size = 2] the list never holds
    three entries, and the third "A" makes no echo. *)
Lemma third_message_silent_in_small_window :
  required_same_count small_window_config = 3 ∧
  echoes small_window_config init
    [deliver 1 "g" "A"; deliver 2 "g" "A"; deliver 3 "g" "A"]
  = [None; None; None] ∧
  group_list
    (run small_window_config init
       [deliver 1 "g" "A"; deliver 2 "g" "A"; deliver 3 "g" "A"]) "g"
  = [ {| time := 2000000; content := "A" |};
      {| time := 3000000; content := "A" |} ].
Proof. vm_compute. done. Qed.

(** It also fails when the window already holds entries with the content:
    after two "A"s, which make no echo and leave the last-repeated record
    empty, the first of three further "A"s is the one that echoes. *)
Lemma first_message_triggers_after_earlier_ones :
  let h := run default_config init [deliver 1 "g" "A"; deliver 2 "g" "A"] in
  last_repeated_content h !! "g"
  = Some {| lr_content := ""; lr_timestamp := None |} ∧
  echoes default_config h
    [deliver 3 "g" "A"; deliver 4 "g" "A"; deliver 5 "g" "A"]
  = [Some ("g", "A"); None; None].
Proof. vm_compute. done. Qed.

(** ** The last-repeated record along a sequence of calls *)

Lemma run_cons cfg h e es :
  run cfg h (e :: es) = run cfg (final (step cfg h e)) es.
Proof. reflexivity. Qed.

(** A call that returns from its echo records the content and the time. *)
Lemma echo_recorded cfg now message h g c :
  sent (execute cfg SendReturns now message h) = Some (g, c) →
  last_repeated_content (final (execute cfg SendReturns now message h)) !! g
  = Some {| lr_content := c; lr_timestamp := Some now |}.
Proof.
  intros Hsent. apply execute_sent_inv in Hsent as [Hacc Htrig].
  rewrite (execute_accepted _ _ _ _ _ _ _ Hacc), process_last_repeated.
  by rewrite Htrig.
Qed.

(** A call that makes no echo in group [g] leaves [g]'s record alone. *)
Lemma quiet_step_keeps_record cfg h e g last :
  last_repeated_content h !! g = Some last →
  (∀ c, sent (step cfg h e) ≠ Some (g, c)) →
  last_repeated_content (final (step cfg h e)) !! g = Some last.
Proof.
  intros Hlast Hquiet. unfold step, execute in *.
  destruct (accepted cfg (ev_message e)) as [[g0 c0]|]; [|done].
  destruct (decide (g0 = g)) as [->|Hne].
  - rewrite process_sent in Hquiet. rewrite process_last_repeated.
    destruct (triggers cfg (ev_time e) g c0 h); [by destruct (Hquiet c0)|].
    unfold group_last. by rewrite Hlast.
  - by rewrite process_last_repeated_ne.
Qed.

Lemma quiet_run_keeps_record cfg g last es :
  ∀ h,
    last_repeated_content h !! g = Some last →
    Forall (fun o => ∀ c, o ≠ Some (g, c)) (echoes cfg h es) →
    last_repeated_content (run cfg h es) !! g = Some last.
Proof.
  induction es as [|e es IH]; intros h Hlast Hquiet; [done|].
  simpl in Hquiet. apply Forall_cons in Hquiet as [Hhead Hrest].
  rewrite run_cons. apply IH; [|done].
  by apply quiet_step_keeps_record.
Qed.

(** The same content within the cooldown of its recorded echo: no echo. *)
Lemma suppressed_step cfg h e g A t0 :
  last_repeated_content h !! g
  = Some {| lr_content := A; lr_timestamp := Some t0 |} →
  (∀ c, accepted cfg (ev_message e) = Some (g, c) →
        c = A ∧
        ev_time e - t0
        <= repeat_cooldown_minutes cfg * 60 * microseconds_per_second) →
  ∀ c, sent (step cfg h e) ≠ Some (g, c).
Proof.
  intros Hlast Honly c Hsent. unfold step in Hsent.
  apply execute_sent_inv in Hsent as [Hacc Htrig].
  destruct (Honly c Hacc) as [-> Hearly].
  apply triggers_spec in Htrig as [_ Hcool].
  unfold group_last in Hcool. rewrite Hlast in Hcool. simpl in Hcool.
  destruct Hcool as [?|[?|(t & [= <-] & Hlate)]]; [done|done|lia].
Qed.

Lemma suppressed_run cfg g A t0 es :
  ∀ h,
    last_repeated_content h !! g
    = Some {| lr_content := A; lr_timestamp := Some t0 |} →
    Forall (fun e => ∀ c, accepted cfg (ev_message e) = Some (g, c) →
              c = A ∧
              ev_time e - t0
              <= repeat_cooldown_minutes cfg * 60 * microseconds_per_second)
      es →
    Forall (fun o => ∀ c, o ≠ Some (g, c)) (echoes cfg h es).
Proof.
  induction es as [|e es IH]; intros h Hlast Honly; [constructor|].
  apply Forall_cons in Honly as [Hhead Hrest]. simpl.
  pose proof (suppressed_step cfg h e g A t0 Hlast Hhead) as Hquiet.
  constructor; [exact Hquiet|].
  apply IH; [|done]. by apply quiet_step_keeps_record.
Qed.

(** A call for content [c] whose stored window counts enough entries
    triggers as soon as the group's record is for another content, or is
    older than the cooldown. *)
Lemma qualifying_call_triggers cfg send now message h g c last :
  accepted cfg message = Some (g, c) →
  last_repeated_content h !! g = Some last →
  required_same_count cfg
  <= occurrences c (group_list (final (execute cfg send now message h)) g) →
  (lr_content last ≠ c ∨
   ∃ t, lr_timestamp last = Some t ∧
        repeat_cooldown_minutes cfg * 60 * microseconds_per_second < now - t) →
  sent (execute cfg send now message h) = Some (g, c).
Proof.
  intros Hacc Hlast. rewrite (execute_accepted _ _ _ _ _ _ _ Hacc).
  rewrite process_group_list, process_sent. intros Hcount Hfree.
  assert (triggers cfg now g c h = true) as ->; [|done].
  apply triggers_spec. split; [done|].
  unfold group_last. rewrite Hlast. simpl.
  destruct Hfree as [Hne|Hlate]; [left; congruence|by right; right].
Qed.

(** ** Cooldown *)

(** C2, as the code has it.  A call that echoes [A] in group [g] at time
    [now0] (the send returns) records that echo.  From then on, in any state in which this is
    still the group's recorded echo, a message [A] for [g] that arrives no
    later than the cooldown after [now0] makes no echo and leaves the record
    as it is, however many entries equal to [A] the window counts; and one
    that arrives later than the cooldown after [now0], with a stored window
    that counts at least [required_same_count] entries equal to [A], is
    echoed again. *)
Theorem cooldown_suppresses_then_expires cfg h0 now0 message0 g A :
  sent (execute cfg SendReturns now0 message0 h0) = Some (g, A) →
  let h1 := final (execute cfg SendReturns now0 message0 h0) in
  let recorded := {| lr_content := A; lr_timestamp := Some now0 |} in
  last_repeated_content h1 !! g = Some recorded ∧
  (∀ h send now message,
     last_repeated_content h !! g = Some recorded →
     accepted cfg message = Some (g, A) →
     let r := execute cfg send now message h in
     (now - now0
      <= repeat_cooldown_minutes cfg * 60 * microseconds_per_second →
      sent r = None ∧
      last_repeated_content (final r) !! g = Some recorded) ∧
     (repeat_cooldown_minutes cfg * 60 * microseconds_per_second
      < now - now0 →
      required_same_count cfg <= occurrences A (group_list (final r) g) →
      sent r = Some (g, A))).
Proof.
  intros Hsent h1 recorded.
  split; [by apply echo_recorded|].
  intros h send now message Hrec Hacc r. subst r. split.
  - intros Hearly.
    pose proof (suppressed_step cfg h
                  {| ev_time := now; ev_message := message; ev_send := send |}
                  g A now0 Hrec) as Hquiet.
    unfold step in Hquiet. simpl in Hquiet.
    assert (∀ c, sent (execute cfg send now message h) ≠ Some (g, c))
      as Hnone.
    { apply Hquiet. intros c Hc. rewrite Hacc in Hc. by injection Hc as <-. }
    split.
    + rewrite (execute_accepted _ _ _ _ _ _ _ Hacc), process_sent in *.
      destruct (triggers cfg now g A h); [by destruct (Hnone A)|done].
    + exact (quiet_step_keeps_record cfg h
               {| ev_time := now; ev_message := message; ev_send := send |}
               g recorded Hrec Hnone).
  - intros Hlate Hcount.
    eapply qualifying_call_triggers; [done|exact Hrec|done|].
    right. by exists now0.
Qed.

Lemma cooldown_suppresses_then_expires_witness :
  let h0 := run default_config init [deliver 1 "g" "A"; deliver 2 "g" "A"] in
  let h1 := final (execute default_config SendReturns 3000000
                     (group_msg "g" "A") h0) in
  let es := [deliver 4 "g" "A"; deliver 400 "g" "A"; deliver 450 "other" "B";
             deliver 500 "g" "A"] in
  sent (execute default_config SendReturns 3000000 (group_msg "g" "A") h0)
  = Some ("g", "A") ∧
  sent (execute default_config SendReturns 4000000 (group_msg "g" "A") h1)
  = None ∧
  sent (execute default_config SendReturns 650000000 (group_msg "g" "A")
          (run default_config h1 es))
  = Some ("g", "A").
Proof.
  intros h0 h1 es.
  assert (sent (execute default_config SendReturns 3000000
                  (group_msg "g" "A") h0) = Some ("g", "A")) as Hsent
    by (vm_compute; reflexivity).
  destruct (cooldown_suppresses_then_expires default_config h0 3000000
              (group_msg "g" "A") "g" "A" Hsent) as [Hrec Hcool].
  split; [exact Hsent|]. split.
  - destruct (Hcool h1 SendReturns 4000000 (group_msg "g" "A") Hrec)
      as [Hearly _]; [vm_compute; reflexivity|].
    apply Hearly. vm_compute. discriminate.
  - destruct (Hcool (run default_config h1 es) SendReturns 650000000
                (group_msg "g" "A")) as [_ Hlate];
      [vm_compute; reflexivity|vm_compute; reflexivity|].
    apply Hlate; [vm_compute; reflexivity|vm_compute; discriminate].
Defined.

(** C2, as the claim has it, fails once another text has been echoed in
    the group: "C" is echoed at second 2, "D" at second 5, which replaces
    the record; the "C" of second 402 arrives 400 seconds after the echo of
    "C", inside the cooldown of 600 seconds, finds three "C"s in its window,
    and is echoed. *)
Lemma cooldown_forgotten_after_other_echo :
  let es := [deliver 0 "g" "C"; deliver 1 "g" "C"; deliver 2 "g" "C";
             deliver 3 "g" "D"; deliver 4 "g" "D"; deliver 5 "g" "D";
             deliver 400 "g" "C"; deliver 401 "g" "C"] in
  let h := run default_config init es in
  let r := execute default_config SendReturns 402000000 (group_msg "g" "C") h in
  echoes default_config init es
  = [None; None; Some ("g", "C"); None; None; Some ("g", "D"); None; None] ∧
  last_repeated_content h !! "g"
  = Some {| lr_content := "D"; lr_timestamp := Some 5000000 |} ∧
  402000000 - 2000000
  <= repeat_cooldown_minutes default_config * 60 * microseconds_per_second ∧
  required_same_count default_config
  <= occurrences "C" (group_list (final r) "g") ∧
  sent r = Some ("g", "C").
Proof. vm_compute. repeat split; congruence. Qed.

(** The cooldown on the default configuration, from the empty handler:
    three "A"s echo on the third; three more right away make no echo; three
    more after the ten minutes echo on the third again. *)
Example cooldown_scenario :
  echoes default_config init
    [deliver 1 "g" "A"; deliver 2 "g" "A"; deliver 3 "g" "A";
     deliver 4 "g" "A"; deliver 5 "g" "A"; deliver 6 "g" "A";
     deliver 700 "g" "A"; deliver 701 "g" "A"; deliver 702 "g" "A"]
  = [None; None; Some ("g", "A"); None; None; None;
     None; None; Some ("g", "A")].
Proof. vm_compute. reflexivity. Qed.

(** C3. A call that echoes [A] in group [g] at time [now0] (the send
    returns) records that echo.  From then on, in any state in which this is
    still the group's recorded echo, a message with another content [B] whose
    stored window counts at least [required_same_count] entries equal to [B]
    is echoed, whatever the clock reads. *)
Theorem other_content_bypasses_cooldown cfg h0 now0 message0 g A B :
  sent (execute cfg SendReturns now0 message0 h0) = Some (g, A) →
  A ≠ B →
  let h1 := final (execute cfg SendReturns now0 message0 h0) in
  let recorded := {| lr_content := A; lr_timestamp := Some now0 |} in
  last_repeated_content h1 !! g = Some recorded ∧
  (∀ h send now message,
     last_repeated_content h !! g = Some recorded →
     accepted cfg message = Some (g, B) →
     let r := execute cfg send now message h in
     required_same_count cfg <= occurrences B (group_list (final r) g) →
     sent r = Some (g, B)).
Proof.
  intros Hsent Hne h1 recorded.
  split; [by apply echo_recorded|].
  intros h send now message Hrec Hacc r Hcount.
  eapply qualifying_call_triggers; [done|exact Hrec|done|].
  by left.
Qed.

Lemma other_content_bypasses_cooldown_witness :
  let h0 := run default_config init [deliver 1 "g" "A"; deliver 2 "g" "A"] in
  let h1 := final (execute default_config SendReturns 3000000
                     (group_msg "g" "A") h0) in
  let es := [deliver 3 "g" "B"; deliver 3 "g" "B"] in
  sent (execute default_config SendReturns 3000000 (group_msg "g" "A") h0)
  = Some ("g", "A") ∧
  sent (execute default_config SendReturns 3000000 (group_msg "g" "B")
          (run default_config h1 es))
  = Some ("g", "B").
Proof.
  intros h0 h1 es.
  assert (sent (execute default_config SendReturns 3000000
                  (group_msg "g" "A") h0) = Some ("g", "A")) as Hsent
    by (vm_compute; reflexivity).
  split; [exact Hsent|].
  destruct (other_content_bypasses_cooldown default_config h0 3000000
              (group_msg "g" "A") "g" "A" "B" Hsent) as [_ Hbypass];
    [discriminate|].
  apply (Hbypass (run default_config h1 es) SendReturns 3000000
           (group_msg "g" "B")).
  - vm_compute. reflexivity.
  - vm_compute. reflexivity.
  - vm_compute. discriminate.
Defined.

(** The bypass on the default configuration, from the empty handler: "A"
    echoes on its third message and "B" on its third, within the same
    seconds. *)
Example bypass_scenario :
  echoes default_config init
    [deliver 1 "g" "A"; deliver 2 "g" "A"; deliver 3 "g" "A";
     deliver 3 "g" "B"; deliver 3 "g" "B"; deliver 3 "g" "B";
     deliver 4 "g" "A"]
  = [None; None; Some ("g", "A"); None; None; Some ("g", "B");
     Some ("g", "A")].
Proof. vm_compute. reflexivity. Qed.

(** ** Only the last echo is remembered *)

(** C10. On the default configuration, in one group: "C" three times
    (seconds 0 to 2, echoed at second 2), "D" three times (seconds 3 to 5,
    echoed at second 5, which replaces the record of "C"), then "C" three
    times again (seconds 400 to 402, when the earlier entries have left the
    five-minute window).  The third of these is echoed at second 402: two
    echoes of "C" 400 seconds apart, inside the cooldown of 600 seconds. *)
Theorem same_content_echoed_twice_within_cooldown :
  ∃ (es : list Event) (g C : string) (i j : nat) (ei ej : Event),
    es !! i = Some ei ∧ es !! j = Some ej ∧ (i < j)%nat ∧
    echoes default_config init es !! i = Some (Some (g, C)) ∧
    echoes default_config init es !! j = Some (Some (g, C)) ∧
    0 <= ev_time ej - ev_time ei ∧
    ev_time ej - ev_time ei
    < repeat_cooldown_minutes default_config * 60 * microseconds_per_second ∧
    echoes default_config init es
    = [None; None; Some (g, C); None; None; Some (g, "D");
       None; None; Some (g, C)] ∧
    last_repeated_content (run default_config init (take 6 es)) !! g
    = Some {| lr_content := "D"; lr_timestamp := Some 5000000 |}.
Proof.
  exists [deliver 0 "g" "C"; deliver 1 "g" "C"; deliver 2 "g" "C";
          deliver 3 "g" "D"; deliver 4 "g" "D"; deliver 5 "g" "D";
          deliver 400 "g" "C"; deliver 401 "g" "C"; deliver 402 "g" "C"].
  exists "g", "C", 2%nat, 8%nat, (deliver 2 "g" "C"), (deliver 402 "g" "C").
  vm_compute. repeat split; (done || lia || discriminate).
Qed.

(** * Further properties of the handler *)

(** ** The prune loop on any list *)

Lemma prune_all_outside now tws l m :
  ¬ now - time m <= tws * microseconds_per_second →
  prune_time_window now tws (l ++ [m]) = [].
Proof.
  intros Hout. rewrite prune_snoc.
  destruct (total_seconds_le _ _) eqn:E; [|done].
  by apply total_seconds_le_spec in E.
Qed.

Lemma prune_maximal now tws l s :
  s `suffix_of` l →
  Forall (fun m => now - time m <= tws * microseconds_per_second) s →
  s `suffix_of` prune_time_window now tws l.
Proof.
  revert s. induction l as [|m l IH] using rev_ind; intros s Hsuf Hin.
  - apply suffix_nil_inv in Hsuf as ->. done.
  - destruct s as [|x s _] using rev_ind; [apply suffix_nil|].
    pose proof (suffix_snoc_inv_1 _ _ _ _ Hsuf) as ->.
    apply suffix_snoc_inv_2 in Hsuf.
    rewrite Forall_app, Forall_singleton in Hin. destruct Hin as [Hs Hm].
    rewrite prune_snoc. apply total_seconds_le_spec in Hm. rewrite Hm.
    apply suffix_app. by apply IH.
Qed.

(** Whatever the order of the time stamps, what the loop of lines 79-88
    keeps is the longest suffix of the list whose entries are all inside the
    time window: it is such a suffix, and every such suffix is a suffix of
    it. *)
Theorem prune_keeps_longest_recent_suffix now tws (l : list Msg) :
  let kept := prune_time_window now tws l in
  kept `suffix_of` l ∧
  Forall (fun m => now - time m <= tws * microseconds_per_second) kept ∧
  ∀ s, s `suffix_of` l →
       Forall (fun m => now - time m <= tws * microseconds_per_second) s →
       s `suffix_of` kept.
Proof.
  split; [apply prune_suffix|]. split; [apply prune_Forall|].
  intros s. apply prune_maximal.
Qed.

Lemma full_scan_app now tws l1 l2 :
  full_scan now tws (l1 ++ l2) = full_scan now tws l1 ++ full_scan now tws l2.
Proof. unfold full_scan. apply filter_app. Qed.

Lemma full_scan_all_inside now tws l :
  Forall (fun m => now - time m <= tws * microseconds_per_second) l →
  full_scan now tws l = l.
Proof.
  unfold full_scan. induction 1 as [|m l Hm _ IH]; [done|].
  rewrite filter_cons_True by done. by rewrite IH.
Qed.

(** Whatever the order of the time stamps, the loop keeps no entry a full
    scan would drop: what it keeps is a suffix of what the full scan keeps.
    It keeps less when the clock has stepped back: an entry outside the
    window hides the older ones inside it from the loop. *)
Theorem prune_suffix_of_full_scan now tws (l : list Msg) :
  prune_time_window now tws l `suffix_of` full_scan now tws l.
Proof.
  induction l as [|m l IH] using rev_ind; [done|].
  rewrite prune_snoc, full_scan_app.
  destruct (total_seconds_le _ _) eqn:E; [|apply suffix_nil].
  apply total_seconds_le_spec in E.
  rewrite (full_scan_all_inside _ _ [m]) by (by repeat constructor).
  by apply suffix_app.
Qed.

(** The clock steps back between the first and the second entry: at second
    400 the full scan keeps the entry of second 350, the loop stops at the
    entry of second 0 and keeps only the newest. *)
Example prune_after_clock_step_back :
  let l := [ {| time := 350000000; content := "A" |};
             {| time := 0; content := "A" |};
             {| time := 400000000; content := "A" |} ] in
  prune_time_window 400000000 300 l
  = [ {| time := 400000000; content := "A" |} ] ∧
  full_scan 400000000 300 l
  = [ {| time := 350000000; content := "A" |};
      {| time := 400000000; content := "A" |} ].
Proof. vm_compute. done. Qed.

Lemma prune_keeps_longest_recent_suffix_witness :
  let l := [ {| time := 350000000; content := "A" |};
             {| time := 0; content := "A" |};
             {| time := 390000000; content := "B" |};
             {| time := 400000000; content := "A" |} ] in
  [ {| time := 400000000; content := "A" |} ]
  `suffix_of` prune_time_window 400000000 300 l.
Proof.
  intros l.
  destruct (prune_keeps_longest_recent_suffix 400000000 300 l)
    as (_ & _ & Hlongest).
  apply Hlongest.
  - by exists (take 3 l).
  - repeat constructor. simpl. unfold microseconds_per_second. lia.
Defined.

(** ** The cap for every size *)

Lemma limit_window_neg w (l : list Msg) :
  w < 0 → limit_window w l = drop (Z.to_nat (- w)) l.
Proof.
  intros Hw. unfold limit_window, py_slice_from.
  destruct (Z.ltb_spec w (Z.of_nat (length l))) as [_|?]; [|lia].
  destruct (Z.ltb_spec (- w) 0) as [?|_]; [lia|].
  destruct (Z.le_gt_cases (- w) (Z.of_nat (length l))) as [Hle|Hgt].
  - f_equal. lia.
  - rewrite !drop_ge by lia. done.
Qed.

(** Lines 91-92 for every integer size: a positive size keeps the newest
    [w] entries; size zero keeps everything (the slice [l[-0:]]); a negative
    size [-k] drops the [k] oldest entries (the slice [l[k:]]), whatever the
    length of the list. *)
Theorem limit_window_cases w (l : list Msg) :
  (1 <= w → limit_window w l = drop (length l - Z.to_nat w) l) ∧
  (w = 0 → limit_window w l = l) ∧
  (w < 0 → limit_window w l = drop (Z.to_nat (- w)) l).
Proof.
  split; [apply limit_window_pos|].
  split; [apply limit_window_zero|apply limit_window_neg].
Qed.

Lemma limit_window_cases_witness :
  let l := [ {| time := 1; content := "A" |}; {| time := 2; content := "B" |};
             {| time := 3; content := "C" |} ] in
  limit_window 2 l = drop 1 l ∧ limit_window 0 l = l ∧
  limit_window (-2) l = drop 2 l ∧ limit_window (-5) l = [].
Proof.
  intros l.
  destruct (limit_window_cases 2 l) as (Hpos & _ & _).
  destruct (limit_window_cases 0 l) as (_ & Hzero & _).
  destruct (limit_window_cases (-2) l) as (_ & _ & Hneg).
  destruct (limit_window_cases (-5) l) as (_ & _ & Hneg').
  split; [apply Hpos; lia|]. split; [by apply Hzero|].
  split; [apply Hneg; lia|apply Hneg'; lia].
Defined.

(** ** The stored list against the history of the group *)

Lemma update_window_suffix cfg now c l :
  update_window cfg now c l
  `suffix_of` l ++ [{| time := now; content := c |}].
Proof.
  unfold update_window. etrans; [apply limit_window_suffix|apply prune_suffix].
Qed.

Lemma history_snoc cfg g es e :
  history cfg g (es ++ [e])
  = history cfg g es ++ match entry_for cfg g e with
                        | Some m => [m]
                        | None => []
                        end.
Proof.
  unfold history. rewrite omap_app. simpl.
  by destruct (entry_for cfg g e).
Qed.

(** What one delivery does to the list of a group, in terms of the entry it
    appends. *)
Lemma step_group_list cfg h e g :
  group_list (final (step cfg h e)) g
  = match entry_for cfg g e with
    | Some m => update_window cfg (time m) (content m) (group_list h g)
    | None => group_list h g
    end.
Proof.
  unfold step, execute, entry_for.
  destruct (accepted cfg (ev_message e)) as [[g' c]|]; [|done].
  destruct (decide (g' = g)) as [->|Hne].
  - by rewrite process_group_list.
  - unfold group_list. by rewrite process_group_messages_ne.
Qed.

Lemma init_group_list g : group_list init g = [].
Proof. unfold group_list. simpl. by rewrite lookup_empty. Qed.

Lemma run_suffix_of_history cfg es g :
  group_list (run cfg init es) g `suffix_of` history cfg g es.
Proof.
  induction es as [|e es IH] using rev_ind.
  - by rewrite init_group_list.
  - rewrite run_snoc, step_group_list, history_snoc.
    destruct (entry_for cfg g e) as [[t c]|]; simpl.
    + etrans; [apply update_window_suffix|]. by apply suffix_app.
    + by rewrite app_nil_r.
Qed.

(** For every configuration, every state and every sequence of
    deliveries, with any clock readings: the list stored for a group
    afterwards is a suffix of the list it had before followed by the messages
    the guards let through for that group, in arrival order.  Nothing is
    reordered or altered, and an entry is dropped only together with every
    older one.  From a fresh handler the list is a suffix of the group's
    history. *)
Theorem stored_list_suffix_of_history cfg h es g :
  group_list (run cfg h es) g `suffix_of` group_list h g ++ history cfg g es ∧
  group_list (run cfg init es) g `suffix_of` history cfg g es.
Proof.
  split; [|apply run_suffix_of_history].
  induction es as [|e es IH] using rev_ind.
  - simpl. by rewrite app_nil_r.
  - rewrite run_snoc, step_group_list, history_snoc.
    destruct (entry_for cfg g e) as [[t c]|]; simpl.
    + etrans; [apply update_window_suffix|].
      rewrite app_assoc. by apply suffix_app.
    + by rewrite app_nil_r.
Qed.

Lemma entry_for_Some cfg g e m :
  entry_for cfg g e = Some m →
  accepted cfg (ev_message e) = Some (g, content m) ∧ time m = ev_time e.
Proof.
  unfold entry_for.
  destruct (accepted cfg (ev_message e)) as [[g' c]|]; [|done].
  destruct (decide (g' = g)) as [->|]; [|done]. by intros [= <-].
Qed.

Lemma history_entries cfg g es m :
  m ∈ history cfg g es →
  ∃ e, e ∈ es ∧ accepted cfg (ev_message e) = Some (g, content m) ∧
       time m = ev_time e.
Proof.
  unfold history. rewrite list_elem_of_omap. intros (e & He & Hm).
  exists e. split; [done|]. by apply entry_for_Some.
Qed.

(** For every sequence of deliveries to a fresh handler, every entry stored
    for a group has a non-empty content of at most [max_message_length]
    characters, and carries the clock reading of the delivery that brought
    it; nothing is ever stored under the empty group id. *)
Theorem stored_entries_passed_the_guards cfg es g :
  (Forall (fun m =>
            content m ≠ "" ∧
            Z.of_nat (py_len (content m)) <= max_message_length cfg ∧
            ∃ e, e ∈ es ∧ ev_time e = time m)
     (group_list (run cfg init es) g)) ∧
  group_list (run cfg init es) "" = [].
Proof.
  split.
  - apply Forall_forall. intros m Hm.
    destruct (run_suffix_of_history cfg es g) as [k Hk].
    assert (m ∈ history cfg g es) as Hin
      by (rewrite Hk; apply elem_of_app; by right).
    apply history_entries in Hin as (e & He & Hacc & Ht).
    apply accepted_Some in Hacc as (_ & _ & _ & _ & _ & _ & Hc & Hlen).
    split; [done|]. split; [done|]. by exists e.
  - destruct (group_list (run cfg init es) "") as [|m l] eqn:E; [done|].
    assert (m ∈ history cfg "" es) as Hin.
    { destruct (run_suffix_of_history cfg es "") as [k Hk].
      rewrite Hk, E. apply elem_of_app. right. by left. }
    apply history_entries in Hin as (e & _ & Hacc & _).
    by apply accepted_Some in Hacc as (_ & _ & _ & _ & ? & _).
Qed.

Lemma occurrences_nonneg c l : 0 <= occurrences c l.
Proof. unfold occurrences. lia. Qed.

Lemma occurrences_suffix c l' l :
  l' `suffix_of` l → occurrences c l' <= occurrences c l.
Proof.
  intros [k ->]. rewrite occurrences_app.
  pose proof (occurrences_nonneg c k). lia.
Qed.

Lemma occurrences_le_length c l : occurrences c l <= Z.of_nat (length l).
Proof.
  unfold occurrences.
  pose proof (length_filter (fun m => content m = c) l). lia.
Qed.

(** An echo is never made for a text the group has not received often
    enough: when a delivery to a handler that started fresh echoes [c] in
    [g], the guards have let through at least [required_same_count]
    messages with text [c] for [g], this delivery included. *)
Theorem echo_needs_enough_arrivals cfg es e g c :
  sent (step cfg (run cfg init es) e) = Some (g, c) →
  required_same_count cfg <= occurrences c (history cfg g (es ++ [e])).
Proof.
  intros Hsent. unfold step in Hsent.
  apply echo_only_if in Hsent as (_ & Hcount & _).
  etrans; [exact Hcount|]. apply occurrences_suffix.
  pose proof (run_suffix_of_history cfg (es ++ [e]) g) as Hsuf.
  by rewrite run_snoc in Hsuf.
Qed.

Lemma echo_needs_enough_arrivals_witness :
  let es := [deliver 1 "g" "A"; deliver 2 "g" "B"; deliver 3 "g" "A"] in
  let e := deliver 4 "g" "A" in
  sent (step default_config (run default_config init es) e) = Some ("g", "A") ∧
  required_same_count default_config
  <= occurrences "A" (history default_config "g" (es ++ [e])).
Proof.
  intros es e. split; [vm_compute; reflexivity|].
  apply (echo_needs_enough_arrivals default_config es e "g" "A").
  vm_compute. reflexivity.
Defined.

(** ** Configurations that never echo *)

(** When the message window is at least one but smaller than the required
    count, no call ever calls [send_text], from any state: the stored list
    never holds enough entries. *)
Theorem no_echo_when_window_below_count cfg send now message h :
  1 <= message_window_size cfg →
  message_window_size cfg < required_same_count cfg →
  sent (execute cfg send now message h) = None.
Proof.
  intros Hw Hsmall.
  destruct (sent (execute cfg send now message h)) as [[g c]|] eqn:E; [|done].
  pose proof (execute_sent_inv _ _ _ _ _ _ _ E) as [Hacc _].
  apply echo_only_if in E as (_ & Hcount & _).
  rewrite (execute_accepted _ _ _ _ _ _ _ Hacc), process_group_list in Hcount.
  pose proof (occurrences_le_length c (window_after cfg now g c h)).
  pose proof (limit_window_length (message_window_size cfg)
                (prune_time_window now (time_window_minutes cfg * 60)
                   (group_list h g ++ [{| time := now; content := c |}])) Hw).
  unfold window_after, update_window in *. lia.
Qed.

Lemma no_echo_when_window_below_count_witness :
  sent (execute small_window_config SendReturns 3000000 (group_msg "g" "A")
          (run zero_window_config init
             [deliver 1 "g" "A"; deliver 2 "g" "A"; deliver 2 "g" "A"]))
  = None.
Proof.
  apply (no_echo_when_window_below_count small_window_config).
  - vm_compute. discriminate.
  - vm_compute. reflexivity.
Defined.

Lemma limit_window_nil w : limit_window w [] = [].
Proof.
  destruct (limit_window_drop w []) as [k ->]. by destruct k.
Qed.

(** With a negative [time_window_minutes] even the message being handled
    is outside the window: the loop breaks at once, the list stored for the
    group is empty after every call that passes the guards, and no echo is
    made as long as at least one occurrence is required. *)
Theorem negative_time_window_stores_nothing cfg send now message h g c :
  time_window_minutes cfg < 0 →
  accepted cfg message = Some (g, c) →
  group_list (final (execute cfg send now message h)) g = [] ∧
  (1 <= required_same_count cfg →
   sent (execute cfg send now message h) = None).
Proof.
  intros Hneg Hacc. rewrite (execute_accepted _ _ _ _ _ _ _ Hacc).
  assert (window_after cfg now g c h = []) as Hempty.
  { unfold window_after, update_window.
    rewrite prune_all_outside; [apply limit_window_nil|].
    simpl. unfold microseconds_per_second. lia. }
  rewrite process_group_list. split; [done|].
  intros Hreq. rewrite process_sent.
  rewrite no_trigger_below_count; [done|].
  rewrite Hempty. unfold occurrences. simpl. lia.
Qed.

Lemma negative_time_window_stores_nothing_witness :
  let h := run default_config init [deliver 1 "g" "A"; deliver 2 "g" "A"] in
  let r := execute negative_time_config SendReturns 3000000
             (group_msg "g" "A") h in
  group_list h "g" = [ {| time := 1000000; content := "A" |};
                       {| time := 2000000; content := "A" |} ] ∧
  group_list (final r) "g" = [] ∧ sent r = None.
Proof.
  intros h r. split; [vm_compute; reflexivity|].
  destruct (negative_time_window_stores_nothing negative_time_config
              SendReturns 3000000 (group_msg "g" "A") h "g" "A")
    as [Hempty Hquiet]; [vm_compute; reflexivity|vm_compute; reflexivity|].
  split; [exact Hempty|]. apply Hquiet. vm_compute. discriminate.
Defined.

(** ** A clock that never steps back *)

Section sorted_lists.
Context (now tws : Z).

#[local] Abbreviation inside := (fun m : Msg => now - time m <= tws * microseconds_per_second).
#[local] Abbreviation outside :=
  (fun m : Msg => ¬ now - time m <= tws * microseconds_per_second).
#[local] Abbreviation earlier := (fun a b : Msg => time a <= time b).

(** In a list with non-decreasing time stamps the entries outside the
    window come first and the entries inside it last. *)
Lemma sorted_split l :
  StronglySorted earlier l →
  ∃ old recent, l = old ++ recent ∧ Forall outside old ∧ Forall inside recent.
Proof.
  induction 1 as [|x l Hl IH Hx]; [by exists [], []|].
  destruct (decide (now - time x <= tws * microseconds_per_second)) as [Hin|Hout].
  - exists [], (x :: l). split; [done|]. split; [done|].
    constructor; [done|]. eapply Forall_impl; [exact Hx|].
    simpl. intros y Hy. lia.
  - destruct IH as (old & recent & -> & Hold & Hrecent).
    exists (x :: old), recent. split; [done|]. split; [|done].
    by constructor.
Qed.

Lemma prune_outside l : Forall outside l → prune_time_window now tws l = [].
Proof.
  destruct l as [|m l _] using rev_ind; [done|].
  rewrite Forall_app, Forall_singleton. intros [_ Hm].
  by apply prune_all_outside.
Qed.

Lemma full_scan_split old recent :
  Forall outside old → Forall inside recent →
  full_scan now tws (old ++ recent) = recent.
Proof.
  intros Hold Hrecent. rewrite full_scan_app.
  by rewrite full_scan_all_outside, full_scan_all_inside.
Qed.

Lemma prune_split old recent :
  Forall outside old → Forall inside recent →
  prune_time_window now tws (old ++ recent) = recent.
Proof.
  intros Hold Hrecent. rewrite prune_app_keep by done.
  by rewrite prune_outside.
Qed.

Lemma prune_sorted l :
  StronglySorted earlier l →
  prune_time_window now tws l = full_scan now tws l.
Proof.
  intros Hsorted.
  destruct (sorted_split l Hsorted) as (old & recent & -> & Hold & Hrecent).
  by rewrite prune_split, full_scan_split.
Qed.
End sorted_lists.

Lemma sorted_suffix (l' l : list Msg) :
  l' `suffix_of` l →
  StronglySorted (fun a b => time a <= time b) l →
  StronglySorted (fun a b => time a <= time b) l'.
Proof. intros [k ->]. apply StronglySorted_app_1_r. Qed.

#[local] Instance ev_time_le_trans :
  Transitive (fun a b : Event => ev_time a <= ev_time b).
Proof. intros a b d Hab Hbd. simpl in *. lia. Qed.

Lemma history_cons cfg g e es :
  history cfg g (e :: es)
  = match entry_for cfg g e with
    | Some m => m :: history cfg g es
    | None => history cfg g es
    end.
Proof. reflexivity. Qed.

Lemma history_sorted cfg g es :
  StronglySorted (fun a b => ev_time a <= ev_time b) es →
  StronglySorted (fun a b => time a <= time b) (history cfg g es).
Proof.
  induction 1 as [|e es Hes IH He]; [constructor|].
  rewrite history_cons. destruct (entry_for cfg g e) as [m|] eqn:E; [|done].
  constructor; [done|].
  apply entry_for_Some in E as [_ Ht].
  apply Forall_forall. intros m' Hm'.
  apply history_entries in Hm' as (e' & He' & _ & Ht').
  rewrite Forall_forall in He. specialize (He e' He'). simpl in He. lia.
Qed.

Lemma history_bound cfg g es T :
  Forall (fun e => ev_time e <= T) es →
  Forall (fun m => time m <= T) (history cfg g es).
Proof.
  intros Hes. apply Forall_forall. intros m Hm.
  apply history_entries in Hm as (e & He & _ & Ht).
  rewrite Forall_forall in Hes. specialize (Hes e He). simpl in Hes. lia.
Qed.

(** When the clock readings of the deliveries never step back, the list
    stored for every group has non-decreasing time stamps: the assumption
    behind the [break] of line 85 holds. *)
Theorem monotone_clock_keeps_lists_sorted cfg es g :
  clock_monotone es →
  nondecreasing (group_list (run cfg init es) g).
Proof.
  intros Hclock. apply Sorted_StronglySorted in Hclock; [|apply _].
  apply StronglySorted_Sorted.
  eapply sorted_suffix; [apply run_suffix_of_history|].
  by apply history_sorted.
Qed.

Lemma monotone_clock_keeps_lists_sorted_witness :
  let es := [deliver 1 "g" "A"; deliver 1 "g" "B"; deliver 2 "other" "A";
             deliver 400 "g" "C"] in
  clock_monotone es ∧ nondecreasing (group_list (run default_config init es) "g").
Proof.
  intros es.
  assert (clock_monotone es) as Hclock
    by (repeat constructor; vm_compute; discriminate).
  split; [exact Hclock|].
  exact (monotone_clock_keeps_lists_sorted default_config es "g" Hclock).
Defined.

Lemma limit_window_app_ge w (front back : list Msg) :
  1 <= w → w <= Z.of_nat (length back) →
  limit_window w (front ++ back) = limit_window w back.
Proof.
  intros Hw Hlen. rewrite !limit_window_pos by done.
  rewrite length_app, drop_app_ge by lia. f_equal. lia.
Qed.

(** Appending to the capped recent part of a history and pruning and
    capping again gives the capped recent part of the longer history. *)
Lemma window_compose cfg entries newest :
  StronglySorted (fun a b => time a <= time b) (entries ++ [newest]) →
  0 <= message_window_size cfg →
  limit_window (message_window_size cfg)
    (prune_time_window (time newest) (time_window_minutes cfg * 60)
       (recent_history cfg entries ++ [newest]))
  = recent_history cfg (entries ++ [newest]).
Proof.
  intros Hsorted Hw.
  set (w := message_window_size cfg) in *.
  set (tws := time_window_minutes cfg * 60).
  set (now := time newest).
  unfold recent_history at 2. rewrite last_snoc. fold w tws now.
  apply StronglySorted_app in Hsorted as (Hle & Hentries & _).
  unfold recent_history. fold w tws.
  destruct (last entries) as [previous|] eqn:Hlast.
  2:{ apply last_None in Hlast as ->. simpl.
      rewrite (prune_sorted now tws [newest]); [done|repeat constructor]. }
  assert (time previous <= now) as Hprev.
  { apply Hle; [|by left]. apply last_Some in Hlast as [l' ->].
    apply elem_of_app. right. by left. }
  (* the history at the previous reading *)
  destruct (sorted_split (time previous) tws entries Hentries)
    as (old & inside1 & -> & Hold & Hinside1).
  rewrite (full_scan_split _ _ _ _ Hold Hinside1).
  assert (StronglySorted (fun a b => time a <= time b) inside1) as Hs1
    by (by apply StronglySorted_app_1_r in Hentries).
  assert (Forall (fun m => ¬ now - time m <= tws * microseconds_per_second) old)
    as Hold'.
  { eapply Forall_impl; [exact Hold|]. simpl. intros m Hm. lia. }
  (* the same entries at the new reading *)
  destruct (sorted_split now tws inside1 Hs1)
    as (old2 & inside2 & -> & Hold2 & Hinside2).
  assert (StronglySorted (fun a b => time a <= time b)
            (limit_window w (old2 ++ inside2) ++ [newest])) as Hs2.
  { apply StronglySorted_app. split; [|split].
    - intros x1 x2 Hx1 Hx2. apply Hle; [|done].
      apply elem_of_app. right.
      destruct (limit_window_suffix w (old2 ++ inside2)) as [k Hk].
      rewrite Hk. apply elem_of_app. by right.
    - eapply sorted_suffix; [apply limit_window_suffix|done].
    - repeat constructor. }
  rewrite (prune_sorted now tws _ Hs2).
  rewrite !full_scan_app, <- !app_assoc.
  rewrite (full_scan_all_outside now tws old Hold'). simpl.
  rewrite <- !full_scan_app, (app_assoc old2).
  rewrite (full_scan_app _ _ (old2 ++ inside2)).
  rewrite (full_scan_split _ _ _ _ Hold2 Hinside2).
  destruct (decide (w = 0)) as [Hzero|Hpos].
  - rewrite (limit_window_zero w (old2 ++ inside2) Hzero).
    rewrite full_scan_app. by rewrite (full_scan_split _ _ _ _ Hold2 Hinside2).
  - assert (1 <= w) as Hw1 by lia.
    rewrite (limit_window_pos w (old2 ++ inside2) Hw1).
    set (d := (length (old2 ++ inside2) - Z.to_nat w)%nat).
    rewrite full_scan_app.
    destruct (decide (d ≤ length old2)%nat) as [Hd|Hd].
    + rewrite drop_app_le by done.
      rewrite full_scan_split; [done|by apply Forall_drop|done].
    + rewrite drop_app_ge by lia.
      rewrite full_scan_all_inside by (by apply Forall_drop).
      rewrite <- (take_drop (d - length old2) inside2) at 2.
      rewrite <- app_assoc. symmetry. apply limit_window_app_ge; [done|].
      rewrite length_app, length_drop. subst d. rewrite length_app in *.
      lia.
Qed.

Lemma run_recent_history cfg es g :
  StronglySorted (fun a b => ev_time a <= ev_time b) es →
  0 <= message_window_size cfg →
  group_list (run cfg init es) g = recent_history cfg (history cfg g es).
Proof.
  intros Hclock Hw. induction es as [|e es IH] using rev_ind.
  - by rewrite init_group_list.
  - pose proof (history_sorted cfg g _ Hclock) as Hsorted.
    apply StronglySorted_app in Hclock as (_ & Hes & _).
    rewrite run_snoc, step_group_list, IH by done.
    rewrite history_snoc in *.
    destruct (entry_for cfg g e) as [[t c]|]; [|by rewrite app_nil_r].
    unfold update_window. by apply (window_compose cfg _ {| time := t; content := c |}).
Qed.

(** When the clock readings never step back and the message window is not
    negative, the list stored for a group after any sequence of deliveries
    to a fresh handler is a function of the group's history alone: the
    messages the guards let through for the group that are inside the time
    window at the newest of them, capped by lines 91-92.  Pruning and capping
    at every call loses nothing that a single pass over the whole history
    would keep. *)
Theorem stored_list_is_recent_history cfg es g :
  clock_monotone es →
  0 <= message_window_size cfg →
  group_list (run cfg init es) g = recent_history cfg (history cfg g es).
Proof.
  intros Hclock Hw. apply Sorted_StronglySorted in Hclock; [|apply _].
  by apply run_recent_history.
Qed.

Lemma stored_list_is_recent_history_witness :
  let es := [deliver 1 "g" "A"; deliver 2 "g" "B"; deliver 2 "other" "A";
             deliver 3 "g" "C"; deliver 400 "g" "D";
             deliver 401 "g" (text_of_length 101)] in
  clock_monotone es ∧
  group_list (run small_window_config init es) "g"
  = recent_history small_window_config (history small_window_config "g" es).
Proof.
  intros es.
  assert (clock_monotone es) as Hclock
    by (repeat constructor; vm_compute; discriminate).
  split; [exact Hclock|].
  apply (stored_list_is_recent_history small_window_config es "g" Hclock).
  vm_compute. discriminate.
Defined.

(** ** Which groups have entries *)

#[local] Instance for_group_dec cfg g e : Decision (for_group cfg g e).
Proof. unfold for_group. apply _. Defined.

Lemma for_group_accepted cfg g e :
  for_group cfg g e ↔ ∃ c, accepted cfg (ev_message e) = Some (g, c).
Proof.
  unfold for_group. destruct (accepted cfg (ev_message e)) as [[g' c]|]; simpl.
  - split; [intros [= ->]; by exists c|by intros (c' & [= -> _])].
  - split; [done|by intros (c' & ?)].
Qed.

(** After one delivery a group has entries in both dicts exactly when it
    had them before or the delivery passed the guards for it. *)
Lemma step_known cfg h e g :
  (is_Some (group_messages (final (step cfg h e)) !! g)
   ↔ is_Some (group_messages h !! g) ∨ for_group cfg g e) ∧
  (is_Some (last_repeated_content (final (step cfg h e)) !! g)
   ↔ is_Some (last_repeated_content h !! g) ∨ for_group cfg g e).
Proof.
  rewrite for_group_accepted. unfold step, execute.
  destruct (accepted cfg (ev_message e)) as [[g' c]|] eqn:Hacc.
  - destruct (decide (g' = g)) as [->|Hne].
    + rewrite process_group_messages, process_last_repeated.
      split; (split; [intros _; right; by exists c|by intros _]).
    + rewrite process_group_messages_ne, process_last_repeated_ne by done.
      split; (split; [by left|]); (intros [?|(c' & ?)]; [done|congruence]).
  - simpl. split; (split; [by left|]); (intros [?|(c' & ?)]; [done|congruence]).
Qed.

(** Entries are created by the first delivery that passes the guards for a
    group and are never removed: after any sequence of deliveries, from any
    state, a group has a list (and, separately, a last-repeated record)
    exactly when it had one before or some delivery of the sequence passed
    the guards for it. *)
Theorem group_entries_created_never_removed cfg h es g :
  (is_Some (group_messages (run cfg h es) !! g)
   ↔ is_Some (group_messages h !! g) ∨ Exists (for_group cfg g) es) ∧
  (is_Some (last_repeated_content (run cfg h es) !! g)
   ↔ is_Some (last_repeated_content h !! g) ∨ Exists (for_group cfg g) es).
Proof.
  induction es as [|e es IH] using rev_ind.
  - simpl. rewrite Exists_nil. split; tauto.
  - rewrite run_snoc, Exists_app, Exists_cons, Exists_nil.
    destruct (step_known cfg (run cfg h es) e g) as [-> ->].
    destruct IH as [-> ->]. split; tauto.
Qed.

(** ** The last-repeated records of a handler that started fresh *)

Lemma step_records_consistent cfg h e :
  (∀ g last, last_repeated_content h !! g = Some last →
             record_consistent last) →
  ∀ g last, last_repeated_content (final (step cfg h e)) !! g = Some last →
            record_consistent last.
Proof.
  intros Hinv g last. unfold step, execute.
  destruct (accepted cfg (ev_message e)) as [[g' c]|] eqn:Hacc; [|apply Hinv].
  destruct (decide (g' = g)) as [->|Hne];
    [|rewrite process_last_repeated_ne by done; apply Hinv].
  rewrite process_last_repeated. intros [= <-].
  apply accepted_Some in Hacc as (_ & _ & _ & _ & _ & _ & Hc & _).
  assert (record_consistent (group_last h g)) as Hold.
  { unfold group_last.
    destruct (last_repeated_content h !! g) as [old|] eqn:E;
      [by eapply Hinv|done]. }
  destruct (triggers cfg (ev_time e) g c h); [|done].
  destruct (ev_send e); [|done].
  unfold record_consistent. simpl. split; [done|congruence].
Qed.

Lemma run_records_consistent cfg es g last :
  last_repeated_content (run cfg init es) !! g = Some last →
  record_consistent last.
Proof.
  revert g last. induction es as [|e es IH] using rev_ind.
  - intros g last. simpl. by rewrite lookup_empty.
  - rewrite run_snoc. by apply step_records_consistent.
Qed.

(** In every state a fresh handler can reach, the [None] case of line 109
    is never taken: when the text of a message that passed the guards equals
    the recorded content of its group, the record has a time stamp.  The
    empty record of lines 68-69 has the empty content, which no such message
    has. *)
Theorem matching_record_has_timestamp cfg es message g c :
  accepted cfg message = Some (g, c) →
  c = lr_content (group_last (run cfg init es) g) →
  ∃ t, lr_timestamp (group_last (run cfg init es) g) = Some t.
Proof.
  intros Hacc Heq.
  apply accepted_Some in Hacc as (_ & _ & _ & _ & _ & _ & Hc & _).
  unfold group_last in *.
  destruct (last_repeated_content (run cfg init es) !! g) as [last|] eqn:E;
    simpl in *; [|by subst c].
  apply run_records_consistent in E as Hcons.
  unfold record_consistent in Hcons.
  destruct (lr_timestamp last) as [t|]; [by exists t|].
  destruct Hcons as [Hempty _]. rewrite Hempty in Heq by done. congruence.
Qed.

Lemma matching_record_has_timestamp_witness :
  let es := [deliver 1 "g" "A"; deliver 2 "g" "A"; deliver 3 "g" "A"] in
  accepted default_config (group_msg "g" "A") = Some ("g", "A") ∧
  "A" = lr_content (group_last (run default_config init es) "g") ∧
  ∃ t, lr_timestamp (group_last (run default_config init es) "g") = Some t.
Proof.
  intros es. split; [vm_compute; reflexivity|].
  split; [vm_compute; reflexivity|].
  apply (matching_record_has_timestamp default_config es
           (group_msg "g" "A") "g" "A"); vm_compute; reflexivity.
Defined.

(** ** Two echoes of the same text in a row *)

(** When a delivery echoes [c] in [g] and its send returns, and the next
    echo in [g] is of [c] again, whatever was delivered in between, the
    second delivery came more than [repeat_cooldown_minutes] after the
    first. *)
Theorem repeated_echo_is_spaced cfg h e1 between e2 g c :
  ev_send e1 = SendReturns →
  sent (step cfg h e1) = Some (g, c) →
  Forall (fun o => ∀ c', o ≠ Some (g, c'))
    (echoes cfg (final (step cfg h e1)) between) →
  sent (step cfg (run cfg (final (step cfg h e1)) between) e2) = Some (g, c) →
  repeat_cooldown_minutes cfg * 60 * microseconds_per_second
  < ev_time e2 - ev_time e1.
Proof.
  intros Hsend Hfirst Hquiet Hsecond. unfold step in Hfirst.
  rewrite Hsend in Hfirst.
  pose proof (echo_recorded _ _ _ _ _ _ Hfirst) as Hrec.
  assert (final (step cfg h e1)
          = final (execute cfg SendReturns (ev_time e1) (ev_message e1) h))
    as Hstate by (unfold step; by rewrite Hsend).
  rewrite Hstate in *.
  pose proof (quiet_run_keeps_record cfg g _ between _ Hrec Hquiet) as Hkept.
  unfold step in Hsecond.
  apply execute_sent_inv in Hsecond as [_ Htrig].
  apply triggers_spec in Htrig as [_ Hcool].
  unfold group_last in Hcool. rewrite Hkept in Hcool. simpl in Hcool.
  destruct Hcool as [?|[?|(t & [= <-] & Hlate)]]; done.
Qed.

Lemma repeated_echo_is_spaced_witness :
  let h := run default_config init [deliver 1 "g" "A"; deliver 2 "g" "A"] in
  let e1 := deliver 3 "g" "A" in
  let between := [deliver 4 "g" "A"; deliver 5 "other" "A";
                  deliver 500 "g" "A"; deliver 600 "g" "A"] in
  let e2 := deliver 700 "g" "A" in
  sent (step default_config h e1) = Some ("g", "A") ∧
  sent (step default_config
          (run default_config (final (step default_config h e1)) between) e2)
  = Some ("g", "A") ∧
  repeat_cooldown_minutes default_config * 60 * microseconds_per_second
  < ev_time e2 - ev_time e1.
Proof.
  intros h e1 between e2.
  split; [vm_compute; reflexivity|]. split; [vm_compute; reflexivity|].
  apply (repeated_echo_is_spaced default_config h e1 between e2 "g" "A").
  - reflexivity.
  - vm_compute. reflexivity.
  - vm_compute. repeat constructor; discriminate.
  - vm_compute. reflexivity.
Defined.

(** ** A group's deliveries on their own *)

Lemma agree_on_refl g h : agree_on g h h.
Proof. by split. Qed.

Lemma step_agree_for_group cfg g h h' e :
  agree_on g h h' → for_group cfg g e →
  agree_on g (final (step cfg h e)) (final (step cfg h' e)) ∧
  sent (step cfg h e) = sent (step cfg h' e).
Proof.
  intros [Hlist Hlast] Hfor.
  apply for_group_accepted in Hfor as [c Hacc]. unfold step.
  rewrite !(execute_accepted _ _ _ _ _ _ _ Hacc).
  assert (window_after cfg (ev_time e) g c h
          = window_after cfg (ev_time e) g c h') as Hwin
    by (unfold window_after, group_list; by rewrite Hlist).
  assert (group_last h g = group_last h' g) as Hgl
    by (unfold group_last; by rewrite Hlast).
  assert (triggers cfg (ev_time e) g c h = triggers cfg (ev_time e) g c h')
    as Htrig by (unfold triggers; by rewrite Hwin, Hgl).
  unfold agree_on.
  rewrite !process_group_messages, !process_last_repeated, !process_sent.
  by rewrite Hwin, Hgl, Htrig.
Qed.

Lemma step_agree_other_group cfg g h e :
  ¬ for_group cfg g e →
  agree_on g (final (step cfg h e)) h ∧
  ∀ c, sent (step cfg h e) ≠ Some (g, c).
Proof.
  intros Hnot. unfold step, execute.
  destruct (accepted cfg (ev_message e)) as [[g' c]|] eqn:Hacc;
    [|split; [apply agree_on_refl|done]].
  assert (g' ≠ g) as Hne.
  { intros ->. apply Hnot. apply for_group_accepted. by exists c. }
  split.
  - split; [by apply process_group_messages_ne
           |by apply process_last_repeated_ne].
  - intros c'. rewrite process_sent.
    destruct (triggers _ _ _ _ _); congruence.
Qed.

Lemma echoes_in_cons g o outs :
  echoes_in g (o :: outs)
  = match o with
    | Some (g', c) => if decide (g' = g) then c :: echoes_in g outs
                      else echoes_in g outs
    | None => echoes_in g outs
    end.
Proof.
  unfold echoes_in. simpl. destruct o as [[g' c]|]; [|done].
  by destruct (decide (g' = g)).
Qed.

Lemma echoes_in_skip g o outs :
  (∀ c, o ≠ Some (g, c)) → echoes_in g (o :: outs) = echoes_in g outs.
Proof.
  intros Hquiet. rewrite echoes_in_cons. destruct o as [[g' c]|]; [|done].
  destruct (decide (g' = g)) as [->|]; [by destruct (Hquiet c)|done].
Qed.

(** Deliveries that do not pass the guards for group [g] (messages of
    other groups, private messages, empty or oversized texts) can be removed
    from a sequence without any effect on [g]: from states that hold the same
    for [g], the whole sequence and its part for [g] end in states that hold
    the same for [g] and echo the same texts in [g], in the same order. *)
Theorem group_sees_only_its_deliveries cfg g es h h' :
  agree_on g h h' →
  agree_on g (run cfg h es) (run cfg h' (filter (for_group cfg g) es)) ∧
  echoes_in g (echoes cfg h es)
  = echoes_in g (echoes cfg h' (filter (for_group cfg g) es)).
Proof.
  revert h h'. induction es as [|e es IH]; intros h h' Hagree; [done|].
  rewrite run_cons. simpl echoes.
  destruct (decide (for_group cfg g e)) as [Hfor|Hnot].
  - rewrite filter_cons_True by done. rewrite run_cons. simpl echoes.
    destruct (step_agree_for_group cfg g h h' e Hagree Hfor) as [Hnext Hsent].
    destruct (IH _ _ Hnext) as [Hrun Hechoes]. split; [done|].
    rewrite !echoes_in_cons, Hsent, Hechoes. done.
  - rewrite filter_cons_False by done.
    destruct (step_agree_other_group cfg g h e Hnot) as [Hsame Hquiet].
    assert (agree_on g (final (step cfg h e)) h') as Hnext.
    { destruct Hsame as [H1 H2], Hagree as [H3 H4]. split; congruence. }
    destruct (IH _ _ Hnext) as [Hrun Hechoes]. split; [done|].
    by rewrite echoes_in_skip.
Qed.

Lemma group_sees_only_its_deliveries_witness :
  let es := [deliver 1 "g" "A"; deliver 1 "other" "A"; deliver 2 "g" "A";
             deliver 2 "g" (text_of_length 101); deliver 2 "other" "A";
             deliver 3 "other" "A"; deliver 3 "g" "A"] in
  filter (for_group default_config "g") es
  = [deliver 1 "g" "A"; deliver 2 "g" "A"; deliver 3 "g" "A"] ∧
  agree_on "g" (run default_config init es)
    (run default_config init (filter (for_group default_config "g") es)) ∧
  echoes_in "g" (echoes default_config init es)
  = echoes_in "g"
      (echoes default_config init (filter (for_group default_config "g") es)).
Proof.
  intros es. split; [vm_compute; reflexivity|].
  apply (group_sees_only_its_deliveries default_config "g" es init init).
  split; reflexivity.
Defined.

(** ** The message being handled *)

Lemma update_window_ends_with_new cfg now c l :
  0 <= time_window_minutes cfg →
  0 <= message_window_size cfg →
  ∃ l', update_window cfg now c l = l' ++ [{| time := now; content := c |}].
Proof.
  intros Htw Hw.
  assert (0 <= time_window_minutes cfg * 60 * microseconds_per_second)
    as Hpos by (unfold microseconds_per_second; lia).
  destruct (decide (message_window_size cfg = 0)) as [Hzero|Hnz].
  - rewrite update_window_zero by done.
    rewrite prune_app_keep; [by eexists|].
    repeat constructor. simpl. lia.
  - destruct (update_window_keep cfg now c l [] Hpos) as (l' & _ & Heq);
      [constructor|simpl; lia|].
    rewrite app_nil_r in Heq. by exists l'.
Qed.

(** With a time window and a message window that are not negative, the
    message being handled is always the newest entry of the stored list,
    so it always counts itself.  With [required_same_count] at most one,
    every message whose text differs from the recorded content of its group
    is therefore echoed at once. *)
Theorem handled_message_counts_itself cfg send now message h g c :
  0 <= time_window_minutes cfg →
  0 <= message_window_size cfg →
  accepted cfg message = Some (g, c) →
  let r := execute cfg send now message h in
  last (group_list (final r) g) = Some {| time := now; content := c |} ∧
  1 <= occurrences c (group_list (final r) g) ∧
  (required_same_count cfg <= 1 →
   c ≠ lr_content (group_last h g) →
   sent r = Some (g, c)).
Proof.
  intros Htw Hw Hacc r. subst r.
  rewrite (execute_accepted _ _ _ _ _ _ _ Hacc), process_group_list.
  destruct (update_window_ends_with_new cfg now c (group_list h g) Htw Hw)
    as [l' Heq].
  assert (1 <= occurrences c (window_after cfg now g c h)) as Hcount.
  { unfold window_after. rewrite Heq, occurrences_app.
    rewrite (occurrences_all c [_]) by (by repeat constructor).
    pose proof (occurrences_nonneg c l'). simpl. lia. }
  split; [unfold window_after; by rewrite Heq, last_snoc|].
  split; [done|].
  intros Hreq Hne. rewrite process_sent.
  assert (triggers cfg now g c h = true) as ->; [|done].
  apply triggers_spec. split; [lia|by left].
Qed.

Lemma handled_message_counts_itself_witness :
  let h := run single_count_config init [deliver 1 "g" "A"] in
  let r := execute single_count_config SendReturns 1000000
             (group_msg "g" "B") h in
  last (group_list (final r) "g")
  = Some {| time := 1000000; content := "B" |} ∧
  1 <= occurrences "B" (group_list (final r) "g") ∧
  sent r = Some ("g", "B").
Proof.
  intros h r.
  destruct (handled_message_counts_itself single_count_config SendReturns
              1000000 (group_msg "g" "B") h "g" "B")
    as (Hlast & Hcount & Hecho);
    [vm_compute; discriminate|vm_compute; discriminate
    |vm_compute; reflexivity|].
  split; [exact Hlast|]. split; [exact Hcount|].
  apply Hecho; [vm_compute; discriminate|vm_compute; discriminate].
Defined.

(** ** A send that raises *)

(** A send that raises does not start the cooldown: when a call triggers
    and its send raises, a later call (the clock not before the first) with
    the same text for the same group triggers again as soon as its stored
    window counts at least [required_same_count] entries with that text,
    however short the time between the two. *)
Theorem failed_send_is_retried cfg now1 message1 h now2 send2 message2 g c :
  sent (execute cfg SendRaises now1 message1 h) = Some (g, c) →
  now1 <= now2 →
  accepted cfg message2 = Some (g, c) →
  let h1 := final (execute cfg SendRaises now1 message1 h) in
  let r2 := execute cfg send2 now2 message2 h1 in
  required_same_count cfg <= occurrences c (group_list (final r2) g) →
  sent r2 = Some (g, c).
Proof.
  intros Hsent Hlater Hacc2 h1 r2. subst h1 r2.
  apply execute_sent_inv in Hsent as [Hacc1 Htrig1].
  rewrite (execute_accepted _ _ _ _ _ _ _ Hacc1).
  rewrite (execute_accepted _ _ _ _ _ _ _ Hacc2).
  rewrite process_group_list, process_sent. intros Hcount.
  assert (triggers cfg now2 g c (final (process cfg SendRaises now1 g c h))
          = true) as ->; [|done].
  apply triggers_spec. split; [done|].
  rewrite process_group_last, Htrig1.
  apply triggers_spec in Htrig1 as [_ Hcool].
  destruct Hcool as [?|[?|(t & Ht & Hlate)]]; [by left|by right; left|].
  right. right. exists t. split; [done|lia].
Qed.

Lemma failed_send_is_retried_witness :
  let h := run default_config init [deliver 1 "g" "A"; deliver 2 "g" "A"] in
  let h1 := final (execute default_config SendRaises 3000000
                     (group_msg "g" "A") h) in
  sent (execute default_config SendRaises 3000000 (group_msg "g" "A") h)
  = Some ("g", "A") ∧
  sent (execute default_config SendReturns 3000000 (group_msg "g" "A") h1)
  = Some ("g", "A").
Proof.
  intros h h1.
  assert (sent (execute default_config SendRaises 3000000
                  (group_msg "g" "A") h) = Some ("g", "A")) as Hsent
    by (vm_compute; reflexivity).
  split; [exact Hsent|].
  apply (failed_send_is_retried default_config 3000000 (group_msg "g" "A") h
           3000000 SendReturns (group_msg "g" "A") "g" "A" Hsent).
  - vm_compute. discriminate.
  - vm_compute. reflexivity.
  - vm_compute. discriminate.
Defined.
